(** * The event push pipeline (internal/eventstore/v3/push.go) and the
      in-memory log storage (internal/logstore/mock/inmem.go)

    A shallow embedding of [Push], [insertEvents], [mapCommands],
    [errIsRetryable] and of [InmemLogStorage.Emit] / [QueryUsage].

    Conventions of the embedding.
    - Go integers are [Z] with the wrap-around of their width written out
      ([uint64_wrap], [int_wrap]).
    - A Go [error] interface value is [option error]; [None] is [nil].
    - The database is reached through a transaction handle.  The handle's
      behaviour is a parameter ([Env]); every call on it is recorded, with
      its answer, in the [trace] of the [World] so that what the code did
      to the transaction can be stated.
    - A function that can panic returns an [outcome].
    - Slices of pointers ([[]*latestSequence], [[]*Record], the events) are
      lists of the records pointed to; an update through a pointer is an
      update of the list at the position of that pointer.  Entries are
      taken to be non-nil; a statement that reads the counters back from
      the slice of baselines takes its entries to be pairwise different,
      so that no pointer is in it twice. *)

From Stdlib Require Import ZArith Sorted.
From stdpp Require Import base list strings pretty.

Local Open Scope string_scope.
Local Open Scope Z_scope.
Local Open Scope list_scope.

(** ** Go basics *)

Definition uint64_wrap (z : Z) : Z := z mod 2 ^ 64.
Definition int_wrap (z : Z) : Z := (z + 2 ^ 63) mod 2 ^ 64 - 2 ^ 63.
Definition MaxUint64 : Z := 2 ^ 64 - 1.
Definition MaxInt : Z := 2 ^ 63 - 1.

(** The result of running a function body: it returns, or it panics. *)
Inductive outcome (A : Type) : Type :=
  | Returns (a : A)
  | Panics (reason : string).
Arguments Returns {A} a.
Arguments Panics {A} reason.

(** A non-nil error value: its message, the answer of [SQLState()] when its
    dynamic type implements [errWithSQLState], and the errors it wraps
    ([Unwrap() error] gives one, [Unwrap() []error] several). *)
#[warnings="-register-all"]
Inductive error : Type :=
  | GoError (msg : string) (sqlState : option string) (wrapped : list error).

(** [errors.As(err, &sqlErr)] followed by [sqlErr.SQLState()]: the first
    error of the chain, in depth-first pre-order, that implements
    [errWithSQLState]. *)
Fixpoint errors_As_SQLState (err : error) : option string :=
  match err with
  | GoError _ (Some code) _ => Some code
  | GoError _ None wrapped =>
      (fix first (errs : list error) : option string :=
         match errs with
         | [] => None
         | e :: errs' =>
             match errors_As_SQLState e with
             | Some code => Some code
             | None => first errs'
             end
         end) wrapped
  end.

Definition errCode (err : option error) : string :=
  match err with
  | None => ""
  | Some e =>
      match errors_As_SQLState e with
      | Some code => code
      | None => ""
      end
  end.

Definition errIsRetryable (err : option error) : bool :=
  let code := errCode err in
  bool_decide (code = "CR000") || bool_decide (code = "40001").

(** ** Data model of the push pipeline *)

(** Instants of [time.Time], in nanoseconds; the zero [Time] is [0]. *)
Definition Time : Type := Z.

Definition Payload : Type := string.

Record Aggregate : Type := {
  ID : string;
  Typ : string;
  ResourceOwner : string;
  InstanceID : string;
  Version : string;
}.

(** [eventstore.Command], an interface: what its methods answer. *)
Record Command : Type := {
  cmd_Aggregate : Aggregate;
  cmd_Creator : string;
  cmd_Type : string;
  cmd_Payload : option string;
}.

Record event : Type := {
  aggregate : Aggregate;
  creator : string;
  typ : string;
  payload : Payload;
  sequence : Z;
  createdAt : Time;
}.

Definition set_createdAt (e : event) (t : Time) : event :=
  {| aggregate := aggregate e; creator := creator e; typ := typ e;
     payload := payload e; sequence := sequence e; createdAt := t |}.

(** Modelled from the spec: [latestSequence] is declared in a file that is
    not among the sources.  A Sequence Baseline: an aggregate reference with
    the highest sequence stored for it, which becomes the running counter
    during assignment.  The counter is an unsigned 64-bit integer, the type
    of [event.sequence] it is copied into. *)
Record latestSequence : Type := {
  seq_aggregate : Aggregate;
  seq_sequence : Z;
}.

(** [sequence.sequence++] *)
Definition increment (s : latestSequence) : latestSequence :=
  {| seq_aggregate := seq_aggregate s;
     seq_sequence := uint64_wrap (seq_sequence s + 1) |}.

(** A statement argument ([any]). *)
Inductive any : Type :=
  | AnyString (s : string)
  | AnyPayload (p : Payload)
  | AnyUint64 (n : Z).

(** [*sql.Rows] of the insert: what [Scan] gives for each row that [Next]
    reaches, and what [Err] answers once [Next] has returned false. *)
Record Rows : Type := {
  rows_scan : list (error + Time);
  rows_Err : option error;
}.

(** A call on the transaction, with its answer. *)
Inductive Op : Type :=
  | OpBegin (r : option error)
  | OpCommit (r : option error)
  | OpRollback (r : option error)
  | OpExec (query : string) (r : option error)
  | OpQuery (query : string) (args : list any) (r : error + Rows)
  | OpLatestSequences (r : error + list latestSequence)
  | OpUniqueConstraints (r : option error).

(** A line written by the [logging] package. *)
Record LogEntry : Type := {
  log_msg : string;
  log_err : option error;
}.

(** What the pipeline is run against: the database behind the transaction
    handle, and the parts of the package declared outside the sources. *)
Class Env : Type := {
  Conn : Type;
  client_Begin : Conn -> Conn * option error;
  tx_Commit : Conn -> Conn * option error;
  tx_Rollback : Conn -> Conn * option error;
  tx_ExecContext : Conn -> string -> Conn * option error;
  tx_QueryContext : Conn -> string -> list any -> Conn * (error + Rows);
  (* the Sequence Oracle and the Uniqueness Manager *)
  run_latestSequences :
    Conn -> list Command -> Conn * (error + list latestSequence);
  run_handleUniqueConstraints : Conn -> list Command -> Conn * option error;
  (* which baseline a command's aggregate reference selects *)
  sameAggregate : Aggregate -> Aggregate -> bool;
  (* serialisation of a command's payload, which may fail *)
  encodePayload : string -> error + Payload;
  (* errs.ThrowInternal(parent, id, message) *)
  ThrowInternal : error -> string -> string -> error;
  (* push.sql and fmt.Sprintf applied to it *)
  pushStmt : string;
  fmt_Sprintf : string -> string -> string;
}.

Section Pipeline.
Context `{env : Env}.

Record World : Type := {
  conn : Conn;
  trace : list Op;
  logs : list LogEntry;
}.

Definition record (w : World) (c : Conn) (op : Op) : World :=
  {| conn := c; trace := trace w ++ [op]; logs := logs w |}.

Definition Begin (w : World) : World * option error :=
  let '(c, r) := client_Begin (conn w) in (record w c (OpBegin r), r).

Definition Commit (w : World) : World * option error :=
  let '(c, r) := tx_Commit (conn w) in (record w c (OpCommit r), r).

Definition Rollback (w : World) : World * option error :=
  let '(c, r) := tx_Rollback (conn w) in (record w c (OpRollback r), r).

Definition ExecContext (w : World) (query : string) : World * option error :=
  let '(c, r) := tx_ExecContext (conn w) query in
  (record w c (OpExec query r), r).

Definition QueryContext (w : World) (query : string) (args : list any)
  : World * (error + Rows) :=
  let '(c, r) := tx_QueryContext (conn w) query args in
  (record w c (OpQuery query args r), r).

Definition latestSequences (w : World) (commands : list Command)
  : World * (error + list latestSequence) :=
  let '(c, r) := run_latestSequences (conn w) commands in
  (record w c (OpLatestSequences r), r).

Definition handleUniqueConstraints (w : World) (commands : list Command)
  : World * option error :=
  let '(c, r) := run_handleUniqueConstraints (conn w) commands in
  (record w c (OpUniqueConstraints r), r).

(** [logging.WithError(err).Debug(msg)] *)
Definition log_WithError (w : World) (err : error) (msg : string) : World :=
  {| conn := conn w; trace := trace w;
     logs := logs w ++ [{| log_msg := msg; log_err := Some err |}] |}.

(** [logging.OnError(err).Debug(msg)]: writes only when [err] is not nil. *)
Definition log_OnError (w : World) (err : option error) (msg : string)
  : World :=
  match err with
  | None => w
  | Some e => log_WithError w e msg
  end.

(** ** mapCommands *)

(** Modelled from the spec: [searchSequenceByCommand] is declared outside
    the sources.  It looks up the baseline of the command's aggregate
    reference among the pre-fetched ones; the pointer it returns is given as
    the position of the entry (with the entry), [None] is [nil]. *)
Definition searchSequenceByCommand (sequences : list latestSequence)
    (command : Command) : option (nat * latestSequence) :=
  list_find
    (λ s, sameAggregate (seq_aggregate s) (cmd_Aggregate command) = true)
    sequences.

(** Modelled from the spec: [commandToEvent] is declared outside the
    sources.  The draft event has the command's aggregate, creator, type and
    payload and is stamped with the counter's value; the error that
    [mapCommands] checks for is a payload that cannot be serialised. *)
Definition commandToEvent (sequence : latestSequence) (command : Command)
  : error + event :=
  let draft (p : Payload) :=
    {| aggregate := cmd_Aggregate command;
       creator := cmd_Creator command;
       typ := cmd_Type command;
       payload := p;
       sequence := seq_sequence sequence;
       createdAt := 0 |} in
  match cmd_Payload command with
  | None => inr (draft "")
  | Some v =>
      match encodePayload v with
      | inl err => inl err
      | inr p => inr (draft p)
      end
  end.

Definition argsPerCommand : Z := 9.

Definition placeHolder (i : Z) : string :=
  let n (k : Z) := pretty (int_wrap (int_wrap (i * argsPerCommand) + k)) in
  "($" +:+ n 1 +:+ ", $" +:+ n 2 +:+ ", $" +:+ n 3 +:+ ", $" +:+ n 4
  +:+ ", $" +:+ n 5 +:+ ", $" +:+ n 6 +:+ ", $" +:+ n 7 +:+ ", $" +:+ n 8
  +:+ ", $" +:+ n 9 +:+ ")".

Definition eventArgs (e : event) : list any :=
  [ AnyString (InstanceID (aggregate e));
    AnyString (ResourceOwner (aggregate e));
    AnyString (Typ (aggregate e));
    AnyString (ID (aggregate e));
    AnyString (Version (aggregate e));
    AnyString (creator e);
    AnyString (typ e);
    AnyPayload (payload e);
    AnyUint64 (sequence e) ].

(** What [mapCommands] hands back besides the error. *)
Record mapped : Type := {
  m_events : list event;
  m_placeHolders : list string;
  m_args : list any;
}.

(** The loop of [mapCommands] from index [i] on.  [events] and
    [placeHolders] are the slots [0 .. i-1] filled so far: the loop writes
    slot [i] in index order, which is an append to them.  The counters are
    updated in place, so the updated [sequences] are part of the result. *)
Fixpoint mapCommands_from (i : nat) (commands : list Command)
    (sequences : list latestSequence) (acc : mapped)
  : outcome (list latestSequence * (error + mapped)) :=
  match commands with
  | [] => Returns (sequences, inr acc)
  | command :: rest =>
      match searchSequenceByCommand sequences command with
      | None => Panics "no sequence found"
      | Some (at_, found) =>
          let sequence := increment found in
          let sequences := <[at_ := sequence]> sequences in
          match commandToEvent sequence command with
          | inl err => Returns (sequences, inl err)
          | inr e =>
              mapCommands_from (S i) rest sequences
                {| m_events := m_events acc ++ [e];
                   m_placeHolders :=
                     m_placeHolders acc ++ [placeHolder (Z.of_nat i)];
                   m_args := m_args acc ++ eventArgs e |}
          end
      end
  end.

Definition mapCommands (commands : list Command)
    (sequences : list latestSequence)
  : outcome (list latestSequence * (error + mapped)) :=
  mapCommands_from 0 commands sequences
    {| m_events := []; m_placeHolders := []; m_args := [] |}.

(** ** insertEvents *)

Definition maxRetries : nat := 5.

(** How control leaves the retry loop: by the [return] inside it, or past
    its end (after a [break] or when [i] reaches [maxRetries]) with the
    current values of the variables [rows] and [err]. *)
Inductive loop_exit : Type :=
  | LoopReturn (err : error)
  | LoopEnd (rows : option Rows) (err : option error).

(** The retry loop with [n] iterations left.  The loop variables [rows] and
    [err] are function-level: each iteration assigns both before it reads
    them, and the values of the last iteration are the ones seen after the
    loop.  ([defer rows.Close()] only releases the cursor when
    [insertEvents] is left; it is not part of the model.) *)
Fixpoint insert_loop (n : nat) (w : World) (query : string)
    (args : list any) (rows : option Rows) (err : option error)
  : World * loop_exit :=
  match n with
  | O => (w, LoopEnd rows err)
  | S n' =>
      let '(w, err) := ExecContext w "SAVEPOINT insert" in
      match err with
      | Some e => (w, LoopReturn (ThrowInternal e "V3-gd8jZ" "Errors.Internal"))
      | None =>
          let '(w, r) := QueryContext w query args in
          match r with
          | inl qerr =>
              let w := log_WithError w qerr "unable to insert" in
              if errIsRetryable (Some qerr) then
                let w := log_WithError w qerr "retry tx" in
                let '(w, err) := ExecContext w "ROLLBACK TO SAVEPOINT insert" in
                let w := log_OnError w err "rollback failed" in
                insert_loop n' w query args None err
              else (w, LoopEnd None (Some qerr))
          | inr rs =>
              let '(w, err) := ExecContext w "RELEASE SAVEPOINT insert" in
              (w, LoopEnd (Some rs) err)
          end
      end
  end.

(** [for i := 0; rows.Next(); i++ { err = rows.Scan(&events[i].createdAt) }]
    over the rows still to come.  [events[i]] is evaluated before [Scan]
    and panics when [i] is out of range. *)
Fixpoint scan_rows (i : nat) (pending : list (error + Time))
    (events : list event) : outcome (error + list event) :=
  match pending with
  | [] => Returns (inr events)
  | r :: pending' =>
      match events !! i with
      | None => Panics "index out of range"
      | Some e =>
          match r with
          | inl err => Returns (inl err)
          | inr t => scan_rows (S i) pending' (<[i := set_createdAt e t]> events)
          end
      end
  end.

(** After the loop: the error check, the scan through [rows] (a nil
    [*sql.Rows] is dereferenced by [Next]), and [rows.Err()]. *)
Definition after_loop (events : list event) (rows : option Rows)
    (err : option error) : outcome (error + list event) :=
  match err with
  | Some e => Returns (inl e)
  | None =>
      match rows with
      | None => Panics "invalid memory address or nil pointer dereference"
      | Some rs =>
          match scan_rows 0 (rows_scan rs) events with
          | Panics p => Panics p
          | Returns (inl e) => Returns (inl e)
          | Returns (inr events) =>
              match rows_Err rs with
              | Some e => Returns (inl e)
              | None => Returns (inr events)
              end
          end
      end
  end.

Definition insertStatement (placeHolders : list string) : string :=
  fmt_Sprintf pushStmt (String.concat ", " placeHolders).

Definition insertEvents (w : World) (sequences : list latestSequence)
    (commands : list Command) : World * outcome (error + list event) :=
  match mapCommands commands sequences with
  | Panics p => (w, Panics p)
  | Returns (_, inl err) => (w, Returns (inl err))
  | Returns (_, inr m) =>
      match insert_loop maxRetries w (insertStatement (m_placeHolders m))
              (m_args m) None None with
      | (w, LoopReturn e) => (w, Returns (inl e))
      | (w, LoopEnd rows err) => (w, after_loop (m_events m) rows err)
      end
  end.

(** ** Push *)

(** The deferred function of [Push], run with the values the named results
    have when the body returns. *)
Definition Push_deferred (w : World) (events : option (list event))
    (err : option error) : World * (option (list event) * option error) :=
  match err with
  | Some e =>
      let '(w, txErr) := Rollback w in
      let w := log_OnError w txErr "unable to rollback transaction" in
      (w, (events, Some e))
  | None =>
      let '(w, err) := Commit w in
      (w, (events, err))
  end.

Definition Push (w : World) (commands : list Command)
  : World * outcome (option (list event) * option error) :=
  let '(w, err) := Begin w in
  match err with
  | Some e => (w, Returns (None, Some e))
  | None =>
      let '(w, r) := latestSequences w commands in
      match r with
      | inl e =>
          let '(w, res) := Push_deferred w None (Some e) in (w, Returns res)
      | inr sequences =>
          match insertEvents w sequences commands with
          | (w, Panics p) =>
              (* the deferred function runs while panicking; [err] is
                 still the nil that latestSequences returned *)
              let '(w, _) := Push_deferred w None None in (w, Panics p)
          | (w, Returns (inl e)) =>
              let '(w, res) := Push_deferred w None (Some e) in
              (w, Returns res)
          | (w, Returns (inr events)) =>
              let '(w, err) := handleUniqueConstraints w commands in
              match err with
              | Some e =>
                  let '(w, res) := Push_deferred w None (Some e) in
                  (w, Returns res)
              | None =>
                  let '(w, res) := Push_deferred w (Some events) None in
                  (w, Returns res)
              end
          end
      end
  end.

End Pipeline.

(** ** Vocabulary of the statements about the pipeline *)

Section Vocabulary.
Context `{env : Env}.

(** The calls made on the transaction between two worlds. *)
Definition issued (w w' : World) : list Op :=
  drop (length (trace w)) (trace w').

(** The command's lookup selects the baseline at position [j]. *)
Definition selects (sequences : list latestSequence) (j : nat)
    (command : Command) : Prop :=
  fst <$> searchSequenceByCommand sequences command = Some j.

#[global] Instance selects_dec sequences j command :
  Decision (selects sequences j command) :=
  decide (fst <$> searchSequenceByCommand sequences command = Some j).

(** The number of commands that refer to the baseline at position [j]. *)
Definition referring (sequences : list latestSequence) (j : nat)
    (commands : list Command) : nat :=
  length (filter (selects sequences j) commands).

(** The sequence numbers carried by the events of those commands, in the
    order of the input. *)
Definition assigned (sequences : list latestSequence) (j : nat)
    (commands : list Command) (events : list event) : list Z :=
  sequence <$>
    (filter (λ ce, selects sequences j ce.1) (zip commands events)).*2.

(** [b+1, ..., b+k] *)
Definition following (b : Z) (k : nat) : list Z :=
  (λ d, b + Z.of_nat d) <$> seq 1 k.

(** The same, computed in the counter's type. *)
Definition following_wrapped (b : Z) (k : nat) : list Z :=
  (λ d, uint64_wrap (b + Z.of_nat d)) <$> seq 1 k.

(** The claim of contiguity for one batch, computed in unbounded integers:
    whenever [mapCommands] returns events, the commands referring to a
    baseline of value [b] carry [b+1, ..., b+k]. *)
Definition contiguity (commands : list Command)
    (sequences : list latestSequence) : Prop :=
  ∀ sequences' m,
    mapCommands commands sequences = Returns (sequences', inr m) →
    ∀ j s, sequences !! j = Some s →
      assigned sequences j commands (m_events m)
      = following (seq_sequence s) (referring sequences j commands).

(** The command's aggregate reference has a pre-fetched baseline. *)
Definition has_baseline (sequences : list latestSequence)
    (command : Command) : Prop :=
  is_Some (searchSequenceByCommand sequences command).

(** The claim that a batch with a command lacking a baseline always ends
    in the panic. *)
Definition panics_without_baseline (commands : list Command)
    (sequences : list latestSequence) : Prop :=
  (∃ c, c ∈ commands ∧ ¬ has_baseline sequences c) →
  ∃ reason, mapCommands commands sequences = Panics reason.

(** [commandToEvent] does not fail on the command. *)
Definition converts (command : Command) : Prop :=
  ∀ v, cmd_Payload command = Some v → ∃ p, encodePayload v = inr p.

(** Calls that the retry loop makes for one insert statement. *)
Definition insert_call (query : string) (args : list any) (op : Op) : Prop :=
  (∃ r, op = OpExec "SAVEPOINT insert" r) ∨
  (∃ r, op = OpQuery query args r) ∨
  (∃ r, op = OpExec "ROLLBACK TO SAVEPOINT insert" r) ∨
  (∃ r, op = OpExec "RELEASE SAVEPOINT insert" r).

Definition is_query (op : Op) : bool :=
  match op with OpQuery _ _ _ => true | _ => false end.

Definition is_commit (op : Op) : bool :=
  match op with OpCommit _ => true | _ => false end.

(** The calls of a run of the retry loop with [n] iterations left, and how
    the run leaves the loop. *)
Inductive insert_run (query : string) (args : list any)
  : nat → option Rows → option error → list Op → loop_exit → Prop :=
  | run_exhausted rows err :
      insert_run query args 0 rows err [] (LoopEnd rows err)
  | run_savepoint_failed n rows err e :
      insert_run query args (S n) rows err
        [OpExec "SAVEPOINT insert" (Some e)]
        (LoopReturn (ThrowInternal e "V3-gd8jZ" "Errors.Internal"))
  | run_retry n rows err qerr rerr calls exit :
      errIsRetryable (Some qerr) = true →
      insert_run query args n None rerr calls exit →
      insert_run query args (S n) rows err
        (OpExec "SAVEPOINT insert" None
         :: OpQuery query args (inl qerr)
         :: OpExec "ROLLBACK TO SAVEPOINT insert" rerr :: calls)
        exit
  | run_stopped n rows err qerr :
      errIsRetryable (Some qerr) = false →
      insert_run query args (S n) rows err
        [OpExec "SAVEPOINT insert" None; OpQuery query args (inl qerr)]
        (LoopEnd None (Some qerr))
  | run_inserted n rows err rs rerr :
      insert_run query args (S n) rows err
        [OpExec "SAVEPOINT insert" None; OpQuery query args (inr rs);
         OpExec "RELEASE SAVEPOINT insert" rerr]
        (LoopEnd (Some rs) rerr).

(** How control leaves [insertEvents] after the loop. *)
Definition leave (events : list event) (exit : loop_exit)
  : outcome (error + list event) :=
  match exit with
  | LoopReturn e => Returns (inl e)
  | LoopEnd rows err => after_loop events rows err
  end.

(** The phases of [Push] up to the first one that returns an error [e],
    and the world in which it returned. *)
Inductive phase_fails (w : World) (commands : list Command)
  : error → World → Prop :=
  | fails_latestSequences w0 w1 e :
      Begin w = (w0, None) →
      latestSequences w0 commands = (w1, inl e) →
      phase_fails w commands e w1
  | fails_insertEvents w0 w1 sequences w2 e :
      Begin w = (w0, None) →
      latestSequences w0 commands = (w1, inr sequences) →
      insertEvents w1 sequences commands = (w2, Returns (inl e)) →
      phase_fails w commands e w2
  | fails_handleUniqueConstraints w0 w1 sequences w2 events w3 e :
      Begin w = (w0, None) →
      latestSequences w0 commands = (w1, inr sequences) →
      insertEvents w1 sequences commands = (w2, Returns (inr events)) →
      handleUniqueConstraints w2 commands = (w3, Some e) →
      phase_fails w commands e w3.

(** All phases of [Push] return without error, [insertEvents] with
    [events], ending in world [w3]. *)
Inductive phases_succeed (w : World) (commands : list Command)
  : list event → World → Prop :=
  | phases_ok w0 w1 sequences w2 events w3 :
      Begin w = (w0, None) →
      latestSequences w0 commands = (w1, inr sequences) →
      insertEvents w1 sequences commands = (w2, Returns (inr events)) →
      handleUniqueConstraints w2 commands = (w3, None) →
      phases_succeed w commands events w3.

End Vocabulary.

(** ** InmemLogStorage *)

Section Logstore.
(** [mock.Record], [clock.Clock] and [query.Quota] are declared outside the
    sources; of a record only its field [ts] is read. *)
Context {LogRecord Clock Quota : Type} (ts : LogRecord → Time).

Record InmemLogStorage : Type := {
  clock : Clock;
  emitted : list LogRecord;
  bulks : list Z;
  quota : Quota;
}.

(** [t.After(u)] *)
Definition After (t u : Time) : bool := bool_decide (u < t).

Definition Emit (l : InmemLogStorage) (bulk : list LogRecord)
  : InmemLogStorage * option error :=
  if decide (length bulk = 0%nat) then (l, None)
  else
    let emitted' := foldl (λ acc r, (acc ++ [r])) (emitted l) bulk in
    ({| clock := clock l; emitted := emitted';
        bulks := bulks l ++ [Z.of_nat (length bulk)]; quota := quota l |},
     None).

Definition QueryUsage (l : InmemLogStorage) (start : Time)
  : InmemLogStorage * (Z * option error) :=
  let count :=
    foldl (λ count r,
             if After (ts r) start then uint64_wrap (count + 1) else count)
          0 (emitted l) in
  (l, (count, None)).

End Logstore.

(** ** A concrete database to run the pipeline against *)

Definition serialization_failure : error :=
  GoError "restart transaction" (Some "40001") [].

Definition syntax_error : error :=
  GoError "syntax error" (Some "42601") [].

(** A database that gives scripted answers to the successive inserts (a
    serialization failure once the script is used up) and whose other
    calls succeed; [baselines] is what the Sequence Oracle returns.  A
    payload is serialisable unless it is empty. *)
Fixpoint Sprintf_s (format arg : string) : string :=
  match format with
  | "" => ""
  | String (Ascii.Ascii true false true false false true false false)
      (String (Ascii.Ascii true true false false true true true false) rest) =>
      arg +:+ rest
  | String c rest => String c (Sprintf_s rest arg)
  end.

Definition scripted (baselines : list latestSequence) : Env := {|
  Conn := list (error + Rows);
  client_Begin c := (c, None);
  tx_Commit c := (c, None);
  tx_Rollback c := (c, None);
  tx_ExecContext c _ := (c, None);
  tx_QueryContext c _ _ :=
    match c with
    | [] => (c, inl serialization_failure)
    | r :: c' => (c', r)
    end;
  run_latestSequences c _ := (c, inr baselines);
  run_handleUniqueConstraints c _ := (c, None);
  sameAggregate a b :=
    bool_decide (Typ a = Typ b ∧ InstanceID a = InstanceID b ∧ ID a = ID b);
  encodePayload v :=
    if bool_decide (v = "") then
      inl (GoError "unexpected end of JSON input" None [])
    else inr v;
  ThrowInternal parent id msg := GoError (id +:+ " " +:+ msg) None [parent];
  pushStmt := "INSERT INTO events VALUES %s RETURNING created_at";
  fmt_Sprintf := Sprintf_s;
|}.

Definition start_of (baselines : list latestSequence)
    (answers : list (error + Rows)) : @World (scripted baselines) :=
  @Build_World (scripted baselines) answers [] [].

Definition user1 : Aggregate :=
  {| ID := "u1"; Typ := "user"; ResourceOwner := "org1";
     InstanceID := "i1"; Version := "v1" |}.

Definition user2 : Aggregate :=
  {| ID := "u2"; Typ := "user"; ResourceOwner := "org1";
     InstanceID := "i1"; Version := "v1" |}.

Definition added (a : Aggregate) (p : string) : Command :=
  {| cmd_Aggregate := a; cmd_Creator := "admin"; cmd_Type := "user.added";
     cmd_Payload := Some p |}.

Definition user3 : Aggregate :=
  {| ID := "u3"; Typ := "user"; ResourceOwner := "org1";
     InstanceID := "i1"; Version := "v1" |}.

Definition baseline (a : Aggregate) (n : Z) : latestSequence :=
  {| seq_aggregate := a; seq_sequence := n |}.

(** Two aggregates with stored events up to 7 and none. *)
Definition fetched : list latestSequence := [baseline user1 7; baseline user2 0].

Definition batch : list Command :=
  [added user1 "{}"; added user2 "{}"; added user1 "{}"].

Definition rows_of (stamps : list Time) : Rows :=
  {| rows_scan := inr <$> stamps; rows_Err := None |}.

(** What [mapCommands] hands back for [batch] on [fetched]. *)
Definition batch_drafts : mapped :=
  Eval vm_compute in
    match @mapCommands (scripted fetched) batch fetched with
    | Returns (_, inr m) => m
    | _ => {| m_events := []; m_placeHolders := []; m_args := [] |}
    end.

Definition batch_statement : string :=
  @insertStatement (scripted fetched) (m_placeHolders batch_drafts).

Definition batch_counted : list latestSequence :=
  [baseline user1 9; baseline user2 1].

(** The database answers the first insert by a serialization failure and
    the second by three rows. *)
Definition retried_once : @World (scripted fetched) :=
  start_of fetched [inl serialization_failure; inr (rows_of [100; 101; 102])].

(** The database answers the first insert by a syntax error. *)
Definition rejected : @World (scripted fetched) :=
  start_of fetched [inl syntax_error].

(** The database answers every insert by a serialization failure, and
    every rollback to the savepoint succeeds. *)
Definition contended : @World (scripted fetched) := start_of fetched [].

(** The events that [Push] returns for [batch] from [retried_once]. *)
Definition pushed : list event :=
  Eval vm_compute in
    match (Push retried_once batch).2 with
    | Returns (Some events, _) => events
    | _ => []
    end.

(** A storage of bare timestamps, for running [Emit] and [QueryUsage]. *)
Definition storage (stamps : list Time) (sizes : list Z)
  : @InmemLogStorage Time unit unit :=
  {| clock := (); emitted := stamps; bulks := sizes; quota := () |}.

(** ** The other methods of InmemLogStorage *)

Section LogstoreOperations.
(** [clock.Clock] is an interface; [Now] is what its method answers in the
    state the clock is in. *)
Context {LogRecord Clock Quota : Type} (ts : LogRecord → Time)
        (Now : Clock → Time).

Definition NewInMemoryStorage (c : Clock) (q : Quota)
  : @InmemLogStorage LogRecord Clock Quota :=
  {| clock := c; emitted := []; bulks := []; quota := q |}.

(** [keep] is a [time.Duration], a 64-bit signed number of nanoseconds;
    [Add] moves the instant by it. *)
Definition Cleanup (l : @InmemLogStorage LogRecord Clock Quota) (keep : Z)
  : @InmemLogStorage LogRecord Clock Quota * option error :=
  let from := Now (clock l) + int_wrap (- int_wrap (keep + 1)) in
  let clean :=
    foldl (λ clean r, if After (ts r) from then clean ++ [r] else clean)
          [] (emitted l) in
  ({| clock := clock l; emitted := clean; bulks := bulks l;
      quota := quota l |}, None).

(** The instant [from] of [Cleanup]. *)
Definition cutoff (l : @InmemLogStorage LogRecord Clock Quota) (keep : Z)
  : Time :=
  Now (clock l) + int_wrap (- int_wrap (keep + 1)).

Definition Bulks (l : @InmemLogStorage LogRecord Clock Quota) : list Z :=
  bulks l.

Definition Len (l : @InmemLogStorage LogRecord Clock Quota) : Z :=
  Z.of_nat (length (emitted l)).

(** [uint64(l.Len())]; the instance, the unit and the start of the period
    are not read. *)
Definition GetQuotaUsage (l : @InmemLogStorage LogRecord Clock Quota)
    (instanceID : string) (periodStart : Time) : Z * option error :=
  (uint64_wrap (Len l), None).

(** What happens to a storage: a bulk is emitted, old records are cleaned
    up, or time passes on its clock. *)
Inductive action : Type :=
  | DoEmit (bulk : list LogRecord)
  | DoCleanup (keep : Z)
  | Tick (c : Clock).

Definition act (l : @InmemLogStorage LogRecord Clock Quota) (a : action)
  : @InmemLogStorage LogRecord Clock Quota :=
  match a with
  | DoEmit bulk => (Emit l bulk).1
  | DoCleanup keep => (Cleanup l keep).1
  | Tick c =>
      {| clock := c; emitted := emitted l; bulks := bulks l;
         quota := quota l |}
  end.

Definition is_cleanup (a : action) : bool :=
  match a with DoCleanup _ => true | _ => false end.

End LogstoreOperations.

Definition sum_of (sizes : list Z) : Z := foldr Z.add 0 sizes.

(** ** Targets (the query package) *)

Module query.

Record ObjectDetails : Type := {
  Sequence : Z;
  EventDate : Time;
  ResourceOwner : string;
}.

Record Target : Type := {
  ID : string;
  Details : ObjectDetails;
  Name : string;
  TargetType : Z;
  URL : string;
  timeout : Z;
  Async : bool;
  InterruptOnError : bool;
}.

(** [maxTimeout] is declared outside the sources. *)
Definition Timeout (maxTimeout : Z) (a : Target) : Z :=
  if bool_decide (timeout a > 0) && bool_decide (timeout a < maxTimeout)
  then timeout a
  else maxTimeout.

Record Targets : Type := {
  Count : Z;
  Targets_ : list Target;
}.

(** The rows of the targets query: what [Scan] gives for each row that
    [Next] reaches (a target and the count column) and what [Close]
    answers. *)
Record TargetRows : Type := {
  target_scans : list (error + (Target * Z));
  target_Close : option error;
}.

(** The loop [for rows.Next() { ... rows.Scan(...) ... }] over the rows
    still to come, with the targets appended and the count scanned so
    far. *)
Fixpoint scanTargets (pending : list (error + (Target * Z)))
    (targets : list Target) (count : Z) : error + (list Target * Z) :=
  match pending with
  | [] => inr (targets, count)
  | inl err :: _ => inl err
  | inr (target, count') :: pending' =>
      scanTargets pending' (targets ++ [target]) count'
  end.

(** The function that [prepareTargetsQuery] returns for the rows;
    [ThrowInternal] is [zerrors.ThrowInternal]. *)
Definition scanTargetRows (ThrowInternal : error → string → string → error)
    (rows : TargetRows) : error + Targets :=
  match scanTargets (target_scans rows) [] 0 with
  | inl err => inl err
  | inr (targets, count) =>
      match target_Close rows with
      | Some err =>
          inl (ThrowInternal err "QUERY-fzwi6cgxos" "Errors.Query.CloseRows")
      | None => inr {| Count := count; Targets_ := targets |}
      end
  end.

End query.

(** ** More vocabulary *)

(** An error wrapped, from the inside out, by errors that have no SQL
    state of their own and wrap just the one error. *)
Definition wrapping (msgs : list string) (e : error) : error :=
  foldr (λ msg inner, GoError msg None [inner]) e msgs.

(** [Commit] or [Rollback]: the calls that end the transaction. *)
Definition is_end (op : Op) : bool :=
  match op with OpCommit _ | OpRollback _ => true | _ => false end.

(** ** More concrete data *)

Definition connection_lost : error := GoError "connection lost" None [].

(** The scripted database, except that the statement [refused] fails. *)
Definition refusing (refused : string) (baselines : list latestSequence)
  : Env := {|
  Conn := list (error + Rows);
  client_Begin c := (c, None);
  tx_Commit c := (c, None);
  tx_Rollback c := (c, None);
  tx_ExecContext c q :=
    if bool_decide (q = refused) then (c, Some connection_lost)
    else (c, None);
  tx_QueryContext c _ _ :=
    match c with
    | [] => (c, inl serialization_failure)
    | r :: c' => (c', r)
    end;
  run_latestSequences c _ := (c, inr baselines);
  run_handleUniqueConstraints c _ := (c, None);
  sameAggregate := @sameAggregate (scripted baselines);
  encodePayload := @encodePayload (scripted baselines);
  ThrowInternal := @ThrowInternal (scripted baselines);
  pushStmt := @pushStmt (scripted baselines);
  fmt_Sprintf := Sprintf_s;
|}.

Definition start_refusing (refused : string) (answers : list (error + Rows))
  : @World (refusing refused fetched) :=
  @Build_World (refusing refused fetched) answers [] [].

Definition webhook (t : Z) : query.Target :=
  {| query.ID := "t1";
     query.Details := {| query.Sequence := 3; query.EventDate := 50;
                         query.ResourceOwner := "org1" |};
     query.Name := "hook"; query.TargetType := 0;
     query.URL := "https://example.com/hook"; query.timeout := t;
     query.Async := false; query.InterruptOnError := true |}.

(** The draft of a command made by [added], stamped with sequence [n]. *)
Definition added_event (n : Z) (a : Aggregate) : event :=
  {| aggregate := a; creator := "admin"; typ := "user.added";
     payload := "{}"; sequence := n; createdAt := 0 |}.

(** * The error classifier *)

Lemma errors_As_wrapped msg e :
  errors_As_SQLState (GoError msg None [e]) = errors_As_SQLState e.
Proof. simpl. by destruct (errors_As_SQLState e). Qed.

Example wrapped_serialization_failure_is_retryable :
  errIsRetryable
    (Some (GoError "V3-gd8jZ Errors.Internal" None
             [GoError "context" None []; serialization_failure])) = true ∧
  errIsRetryable (Some syntax_error) = false ∧
  errIsRetryable (Some (GoError "EOF" None [])) = false ∧
  errIsRetryable None = false.
Proof. done. Qed.

(** C4. [errIsRetryable] answers true exactly for an error from which
    [errors.As] extracts an SQL state and that state is "40001" or "CR000";
    nil, an error without an extractable state and an error with any other
    state are not retryable. *)
Theorem errIsRetryable_iff_code (err : option error) :
  errIsRetryable err = true ↔
  ∃ e code, err = Some e ∧ errors_As_SQLState e = Some code ∧
            (code = "40001" ∨ code = "CR000").
Proof.
  unfold errIsRetryable, errCode.
  rewrite orb_true_iff, !bool_decide_eq_true.
  destruct err as [e|]; [destruct (errors_As_SQLState e) as [c|] eqn:Hc|].
  - split; [intros [->| ->]; eauto 6|].
    intros (e' & code & [= <-] & Hcode & Hor). rewrite Hc in Hcode.
    injection Hcode as ->. tauto.
  - split; [by intros [?|?]|]. intros (e' & code & [= <-] & Hcode & _).
    by rewrite Hc in Hcode.
  - split; [by intros [?|?]|]. by intros (? & ? & ? & _).
Qed.

Lemma errIsRetryable_no_code e :
  errors_As_SQLState e = None → errIsRetryable (Some e) = false.
Proof. unfold errIsRetryable, errCode. by intros ->. Qed.

Lemma errIsRetryable_other_code e code :
  errors_As_SQLState e = Some code → code ≠ "40001" → code ≠ "CR000" →
  errIsRetryable (Some e) = false.
Proof.
  unfold errIsRetryable, errCode. intros -> ??.
  by rewrite !bool_decide_eq_false_2.
Qed.

(** * The in-memory log storage *)

Section LogstoreFacts.
Context {LogRecord Clock Quota : Type} (ts : LogRecord → Time).
Implicit Types (l : @InmemLogStorage LogRecord Clock Quota).

Lemma foldl_append (acc bulk : list LogRecord) :
  foldl (λ acc r, (acc ++ [r])) acc bulk = (acc ++ bulk).
Proof.
  revert acc. induction bulk as [|r bulk IH]; intros acc; simpl.
  - by rewrite app_nil_r.
  - by rewrite IH, <-app_assoc.
Qed.

(** C9. [Emit] of an empty bulk returns nil and the storage as it was; of a
    bulk of [n > 0] records it appends the records to [emitted] in their
    order and the one number [n] to [bulks]. *)
Theorem Emit_frame l :
  Emit l [] = (l, None) ∧
  ∀ r bulk,
    Emit l (r :: bulk) =
      ({| clock := clock l;
          emitted := (emitted l ++ r :: bulk);
          bulks := (bulks l ++ [Z.of_nat (length (r :: bulk))]);
          quota := quota l |}, None).
Proof.
  split; [done|]. intros r bulk. unfold Emit.
  destruct (decide _) as [Hlen|_]; [done|]. by rewrite foldl_append.
Qed.

Lemma count_loop start (records : list LogRecord) (count : Z) :
  0 ≤ count →
  count + Z.of_nat (length records) ≤ MaxUint64 →
  foldl (λ count r,
           if After (ts r) start then uint64_wrap (count + 1) else count)
        count records
  = count + Z.of_nat (length (filter (λ r, start < ts r) records)).
Proof.
  revert count. induction records as [|r records IH]; intros count Hlo Hhi.
  { simpl. lia. }
  cbn [foldl]. unfold After at 2. rewrite filter_cons.
  cbn [length] in Hhi. unfold MaxUint64 in *.
  destruct (decide (start < ts r)) as [Hlt|Hge].
  - rewrite bool_decide_eq_true_2 by done.
    unfold uint64_wrap. rewrite Z.mod_small by lia.
    rewrite IH by lia. cbn [length]. lia.
  - rewrite bool_decide_eq_false_2 by done. rewrite IH by lia. done.
Qed.

(** C10. [QueryUsage] returns the number of emitted records whose timestamp
    is strictly after [start] (a timestamp equal to [start] does not
    count) and the storage as it was.  The length of [emitted] is that of
    a slice, at most [MaxInt]. *)
Theorem QueryUsage_counts_after l start :
  Z.of_nat (length (emitted l)) ≤ MaxInt →
  QueryUsage ts l start =
    (l, (Z.of_nat (length (filter (λ r, start < ts r) (emitted l))), None)) ∧
  ∀ r, r ∈ filter (λ r, start < ts r) (emitted l) → ts r ≠ start.
Proof.
  intros Hlen. split.
  - unfold QueryUsage. rewrite count_loop; [done|done|].
    unfold MaxInt, MaxUint64 in *. lia.
  - intros r [Hr _]%list_elem_of_filter. lia.
Qed.

End LogstoreFacts.

Lemma QueryUsage_counts_after_witness :
  QueryUsage id (storage [5; 6; 4; 5; 9] [2; 3]) 5
  = (storage [5; 6; 4; 5; 9] [2; 3], (2, None)).
Proof.
  assert (Hlen : Z.of_nat (length (emitted (storage [5; 6; 4; 5; 9] [2; 3])))
                 ≤ MaxInt) by (vm_compute; discriminate).
  exact (proj1 (QueryUsage_counts_after id _ 5 Hlen)).
Defined.

(** * Arithmetic of the sequence counter *)

Lemma uint64_wrap_small z : 0 ≤ z ≤ MaxUint64 → uint64_wrap z = z.
Proof. unfold uint64_wrap, MaxUint64. intros ?. apply Z.mod_small. lia. Qed.

Lemma uint64_wrap_succ b d :
  uint64_wrap (uint64_wrap (b + 1) + d) = uint64_wrap (b + (1 + d)).
Proof.
  unfold uint64_wrap. rewrite Z.add_mod_idemp_l by lia. f_equal. lia.
Qed.

Lemma following_wrapped_S b k :
  following_wrapped b (S k)
  = uint64_wrap (b + 1) :: following_wrapped (uint64_wrap (b + 1)) k.
Proof.
  unfold following_wrapped. cbn [seq fmap list_fmap]. f_equal.
  rewrite <-fmap_S_seq, <-list_fmap_compose.
  apply list_fmap_ext. intros _ d _. cbn.
  rewrite uint64_wrap_succ. f_equal. lia.
Qed.

Lemma following_wrapped_in_range b k :
  0 ≤ b → b + Z.of_nat k ≤ MaxUint64 →
  following_wrapped b k = following b k.
Proof.
  intros Hlo Hhi. unfold following_wrapped, following.
  apply list_fmap_ext. intros i d Hd.
  apply lookup_seq in Hd as [-> Hi]. apply uint64_wrap_small. lia.
Qed.

Lemma following_increasing b k : StronglySorted Z.lt (following b k).
Proof.
  unfold following. generalize 1%nat as from.
  induction k as [|k IH]; intros from; cbn [seq fmap list_fmap].
  - constructor.
  - constructor; [apply IH|].
    apply Forall_fmap, Forall_seq. intros d Hd. cbn. lia.
Qed.

(** * The sequence assigner *)

Example placeHolder_second_command :
  placeHolder 1 = "($10, $11, $12, $13, $14, $15, $16, $17, $18)".
Proof. by vm_compute. Qed.

Example batch_sequences :
  sequence <$> m_events batch_drafts = [8; 1; 9] ∧
  batch_statement
  = "INSERT INTO events VALUES ($1, $2, $3, $4, $5, $6, $7, $8, $9), "
    +:+ "($10, $11, $12, $13, $14, $15, $16, $17, $18), "
    +:+ "($19, $20, $21, $22, $23, $24, $25, $26, $27) RETURNING created_at".
Proof. by vm_compute. Qed.

Section MapCommandsFacts.
Context `{env : Env}.
Implicit Types (sequences : list latestSequence) (commands : list Command).

(** The lookup reads only the aggregate references of the baselines. *)
Lemma search_position_aggregates sequences sequences' command :
  seq_aggregate <$> sequences = seq_aggregate <$> sequences' →
  fst <$> searchSequenceByCommand sequences command
  = fst <$> searchSequenceByCommand sequences' command.
Proof.
  unfold searchSequenceByCommand. revert sequences'.
  induction sequences as [|s sequences IH]; intros [|s' sequences'] [=];
    [done|]. cbn [list_find].
  match goal with H : seq_aggregate s = _ |- _ => rewrite H end.
  destruct (decide _); [done|].
  rewrite <-!option_fmap_compose.
  specialize (IH sequences' ltac:(done)).
  destruct (list_find _ sequences) as [[? ?]|],
           (list_find _ sequences') as [[? ?]|]; simplify_eq/=; done.
Qed.

Lemma search_lookup sequences command j s :
  searchSequenceByCommand sequences command = Some (j, s) →
  sequences !! j = Some s.
Proof. intros H. by apply list_find_Some in H as (? & _). Qed.

(** Counting up a counter leaves the aggregate references as they are. *)
Lemma increment_aggregates sequences j s :
  sequences !! j = Some s →
  seq_aggregate <$> <[j := increment s]> sequences
  = seq_aggregate <$> sequences.
Proof.
  intros H. rewrite list_fmap_insert. apply list_insert_id.
  by rewrite list_lookup_fmap, H.
Qed.

Lemma selects_aggregates sequences sequences' j command :
  seq_aggregate <$> sequences = seq_aggregate <$> sequences' →
  selects sequences j command ↔ selects sequences' j command.
Proof.
  intros H. unfold selects.
  by rewrite (search_position_aggregates _ _ _ H).
Qed.

Lemma has_baseline_aggregates sequences sequences' command :
  seq_aggregate <$> sequences = seq_aggregate <$> sequences' →
  has_baseline sequences command ↔ has_baseline sequences' command.
Proof.
  intros H. unfold has_baseline. rewrite <-!fmap_is_Some with (f := fst).
  by rewrite (search_position_aggregates _ _ _ H).
Qed.

Lemma referring_aggregates sequences sequences' j commands :
  seq_aggregate <$> sequences = seq_aggregate <$> sequences' →
  referring sequences j commands = referring sequences' j commands.
Proof.
  intros H. unfold referring. f_equal. apply list_filter_iff.
  intros c. by apply selects_aggregates.
Qed.

Lemma assigned_aggregates sequences sequences' j commands events :
  seq_aggregate <$> sequences = seq_aggregate <$> sequences' →
  assigned sequences j commands events = assigned sequences' j commands events.
Proof.
  intros H. unfold assigned. do 2 f_equal. apply list_filter_iff.
  intros c. by apply selects_aggregates.
Qed.

Lemma commandToEvent_sequence s command e :
  commandToEvent s command = inr e → sequence e = seq_sequence s.
Proof.
  unfold commandToEvent. intros H.
  destruct (cmd_Payload command) as [v|]; [destruct (encodePayload v)|];
    by simplify_eq/=.
Qed.

Lemma commandToEvent_converts s command :
  converts command → ∃ e, commandToEvent s command = inr e.
Proof.
  unfold converts, commandToEvent. intros H.
  destruct (cmd_Payload command) as [v|]; [|by eauto].
  destruct (H v eq_refl) as [p ->]. by eauto.
Qed.

(** What a run of the loop that returns events has done: one event per
    command, built from that command and the counter of its baseline after
    counting it up, and per baseline the wrapped successors of its value. *)
Lemma mapCommands_from_returns commands : ∀ i sequences acc sequences' m,
  mapCommands_from i commands sequences acc = Returns (sequences', inr m) →
  ∃ events,
    m_events m = m_events acc ++ events ∧
    Forall2 (λ c e, ∃ s, commandToEvent s c = inr e) commands events ∧
    ∀ j s, sequences !! j = Some s →
      assigned sequences j commands events
      = following_wrapped (seq_sequence s) (referring sequences j commands).
Proof.
  induction commands as [|c commands IH]; intros i sequences acc sequences' m.
  { intros [= <- <-]. exists []. rewrite app_nil_r. by repeat split. }
  cbn [mapCommands_from].
  destruct (searchSequenceByCommand sequences c) as [[at_ found]|] eqn:Hs;
    [|done].
  pose proof (search_lookup _ _ _ _ Hs) as Hat.
  pose proof (increment_aggregates _ _ _ Hat) as Hagg.
  destruct (commandToEvent (increment found) c) as [err|e] eqn:He; [done|].
  intros (events & Hev & Hall & Hseq)%IH. exists (e :: events).
  cbn [m_events] in Hev. rewrite <-app_assoc in Hev.
  split; [done|]. split; [constructor; eauto|].
  intros j s Hj. unfold assigned, referring.
  cbn [zip zip_with]. rewrite !filter_cons. cbn [fst].
  destruct (decide (selects sequences j c)) as [Hsel|Hsel].
  - (* the command counts the baseline at [j] up *)
    unfold selects in Hsel. rewrite Hs in Hsel. injection Hsel as <-.
    rewrite Hat in Hj. injection Hj as <-.
    cbn [fmap list_fmap snd length]. rewrite following_wrapped_S.
    rewrite (commandToEvent_sequence _ _ _ He). cbn [increment seq_sequence].
    f_equal.
    specialize (Hseq at_ (increment found)).
    rewrite list_lookup_insert_eq in Hseq by (by eapply lookup_lt_Some).
    specialize (Hseq eq_refl).
    rewrite (assigned_aggregates _ _ _ _ _ Hagg) in Hseq.
    rewrite (referring_aggregates _ _ _ _ Hagg) in Hseq. exact Hseq.
  - (* the command counts another baseline up *)
    assert (at_ ≠ j) as Hne.
    { intros ->. apply Hsel. unfold selects. by rewrite Hs. }
    specialize (Hseq j s).
    rewrite list_lookup_insert_ne in Hseq by done.
    specialize (Hseq Hj).
    rewrite (assigned_aggregates _ _ _ _ _ Hagg) in Hseq.
    rewrite (referring_aggregates _ _ _ _ Hagg) in Hseq. exact Hseq.
Qed.

(** The loop runs through commands that have a baseline and convert. *)
Lemma mapCommands_from_app pre : ∀ i sequences acc rest,
  Forall (λ c, has_baseline sequences c ∧ converts c) pre →
  ∃ sequences1 acc1,
    seq_aggregate <$> sequences1 = seq_aggregate <$> sequences ∧
    mapCommands_from i (pre ++ rest) sequences acc
    = mapCommands_from (i + length pre) rest sequences1 acc1.
Proof.
  induction pre as [|c pre IH]; intros i sequences acc rest Hpre.
  { exists sequences, acc. by rewrite Nat.add_0_r. }
  apply Forall_cons in Hpre as [[[[at_ found] Hs] Hconv] Hpre].
  cbn [app mapCommands_from]. rewrite Hs.
  pose proof (increment_aggregates _ _ _ (search_lookup _ _ _ _ Hs)) as Hagg.
  destruct (commandToEvent_converts (increment found) c Hconv) as [e ->].
  edestruct IH as (sequences1 & acc1 & Hagg1 & ->).
  { eapply Forall_impl; [exact Hpre|]. intros c' [Hb ?]. split; [|done].
    by apply (has_baseline_aggregates _ _ _ Hagg). }
  exists sequences1, acc1. split; [congruence|].
  f_equal. cbn [length]. lia.
Qed.

Lemma mapCommands_from_no_panic commands : ∀ i sequences acc reason,
  Forall (has_baseline sequences) commands →
  mapCommands_from i commands sequences acc ≠ Panics reason.
Proof.
  induction commands as [|c commands IH]; intros i sequences acc reason Hall;
    [done|].
  apply Forall_cons in Hall as [[[at_ found] Hs] Hall].
  cbn [mapCommands_from]. rewrite Hs.
  destruct (commandToEvent _ c); [done|]. apply IH.
  eapply Forall_impl; [exact Hall|]. intros c'.
  apply has_baseline_aggregates.
  by eapply increment_aggregates, search_lookup.
Qed.

(** C1, within the range of the counter.  [mapCommands] returns events for
    every batch whose commands have a baseline and convert; and whenever it
    returns events, the commands referring to a baseline of value [b], [k]
    of them, carry [b+1, ..., b+k] in the order of the input, strictly
    increasing, provided [b+k] does not exceed the largest 64-bit unsigned
    value. *)
Theorem mapCommands_contiguous commands sequences :
  (Forall (λ c, has_baseline sequences c ∧ converts c) commands →
   ∃ sequences' m,
     mapCommands commands sequences = Returns (sequences', inr m)) ∧
  (∀ sequences' m j s,
     mapCommands commands sequences = Returns (sequences', inr m) →
     sequences !! j = Some s →
     0 ≤ seq_sequence s →
     seq_sequence s + Z.of_nat (referring sequences j commands) ≤ MaxUint64 →
     assigned sequences j commands (m_events m)
     = following (seq_sequence s) (referring sequences j commands) ∧
     StronglySorted Z.lt (assigned sequences j commands (m_events m))).
Proof.
  split.
  - intros Hall. unfold mapCommands.
    destruct (mapCommands_from_app commands 0 sequences
                {| m_events := []; m_placeHolders := []; m_args := [] |} []
                Hall) as (sequences1 & acc1 & _ & Heq).
    rewrite app_nil_r in Heq. rewrite Heq. by exists sequences1, acc1.
  - intros sequences' m j s Hrun Hj Hlo Hhi.
    apply mapCommands_from_returns in Hrun as (events & Hev & _ & Hseq).
    cbn [m_events app] in Hev. subst events.
    assert (assigned sequences j commands (m_events m)
            = following (seq_sequence s) (referring sequences j commands))
      as ->; [|split; [done|apply following_increasing]].
    rewrite (Hseq j s Hj). by apply following_wrapped_in_range.
Qed.

(** C5, for a batch that reaches the command without a baseline.  When the
    commands before it have a baseline and convert, [mapCommands] panics
    at it, and [insertEvents] panics with it before any call on the
    transaction: nothing is retried and no event, so no default sequence,
    comes back.  When instead the first command that does not convert comes
    before it, [mapCommands] returns the error of that conversion, whatever
    follows in the batch, and [insertEvents] returns it without a call on
    the transaction.  When every command has a baseline, [mapCommands] does
    not panic. *)
Theorem mapCommands_missing_baseline sequences :
  (∀ pre c post,
     Forall (λ c', has_baseline sequences c' ∧ converts c') pre →
     ¬ has_baseline sequences c →
     mapCommands (pre ++ c :: post) sequences = Panics "no sequence found" ∧
     ∀ w, insertEvents w sequences (pre ++ c :: post)
          = (w, Panics "no sequence found")) ∧
  (∀ pre c post v err,
     Forall (λ c', has_baseline sequences c' ∧ converts c') pre →
     has_baseline sequences c →
     cmd_Payload c = Some v →
     encodePayload v = inl err →
     (∃ sequences',
        mapCommands (pre ++ c :: post) sequences
        = Returns (sequences', inl err)) ∧
     ∀ w, insertEvents w sequences (pre ++ c :: post)
          = (w, Returns (inl err))) ∧
  (∀ commands reason,
     Forall (has_baseline sequences) commands →
     mapCommands commands sequences ≠ Panics reason).
Proof.
  split; [|split; [|intros; by apply mapCommands_from_no_panic]].
  - intros pre c post Hpre Hc.
    assert (mapCommands (pre ++ c :: post) sequences
            = Panics "no sequence found") as Hpanic.
    { unfold mapCommands.
      edestruct mapCommands_from_app as (sequences1 & acc1 & Hagg & ->);
        [exact Hpre|].
      cbn [mapCommands_from].
      destruct (searchSequenceByCommand sequences1 c) eqn:Hs; [|done].
      exfalso. apply Hc, (has_baseline_aggregates _ _ _ Hagg).
      unfold has_baseline. by rewrite Hs. }
    split; [done|]. intros w. unfold insertEvents. by rewrite Hpanic.
  - intros pre c post v err Hpre Hc Hv Herr.
    assert (∃ sequences',
              mapCommands (pre ++ c :: post) sequences
              = Returns (sequences', inl err)) as [sequences' Hreturn].
    { unfold mapCommands.
      edestruct mapCommands_from_app as (sequences1 & acc1 & Hagg & ->);
        [exact Hpre|].
      cbn [mapCommands_from].
      apply (has_baseline_aggregates _ _ _ Hagg) in Hc
        as [[at_ found] ->].
      unfold commandToEvent. rewrite Hv, Herr. by eexists. }
    split; [by exists sequences'|].
    intros w. unfold insertEvents. by rewrite Hreturn.
Qed.

End MapCommandsFacts.

Lemma batch_has_baselines :
  Forall (λ c, @has_baseline (scripted fetched) fetched c ∧
               @converts (scripted fetched) c) batch.
Proof.
  repeat constructor; try (by vm_compute; eauto);
    intros v [= <-]; by eexists.
Qed.

Lemma mapCommands_contiguous_witness :
  ∃ sequences' m,
    @mapCommands (scripted fetched) batch fetched
    = Returns (sequences', inr m) ∧
    sequence <$> m_events m = [8; 1; 9] ∧
    @assigned (scripted fetched) fetched 0 batch (m_events m) = [8; 9].
Proof.
  destruct (proj1 (@mapCommands_contiguous (scripted fetched) batch fetched)
              batch_has_baselines) as (sequences' & m & Hrun).
  exists sequences', m. split; [exact Hrun|].
  split; [by vm_compute in Hrun; simplify_eq|].
  refine (proj1 (proj2 (@mapCommands_contiguous (scripted fetched) batch
                          fetched) sequences' m 0%nat (baseline user1 7)
                   Hrun eq_refl _ _)); by vm_compute.
Defined.

(** C1 as stated fails at the top of the counter's range: a baseline of
    [2^64 - 1] is followed by sequence [0], not by [2^64]. *)
Lemma contiguity_fails_at_MaxUint64 :
  ¬ @contiguity (scripted [baseline user1 MaxUint64])
      [added user1 "{}"] [baseline user1 MaxUint64].
Proof.
  intros H.
  specialize (H _ _ eq_refl 0%nat _ eq_refl). by vm_compute in H.
Qed.

Lemma mapCommands_missing_baseline_witness :
  @mapCommands (scripted fetched) [added user1 "{}"; added user3 "{}"] fetched
  = Panics "no sequence found" ∧
  (∃ sequences',
     @mapCommands (scripted fetched) [added user1 ""; added user3 "{}"] fetched
     = Returns (sequences',
                inl (GoError "unexpected end of JSON input" None []))) ∧
  ∀ reason, @mapCommands (scripted fetched) batch fetched ≠ Panics reason.
Proof.
  pose proof (@mapCommands_missing_baseline (scripted fetched) fetched)
    as (Hpanic & Herror & Hfine).
  split; [|split].
  - apply (Hpanic [added user1 "{}"] (added user3 "{}") []).
    + repeat constructor; [by vm_compute; eauto|].
      intros v [= <-]; by eexists.
    + by intros [? [=]].
  - apply (Herror [] (added user1 "") [added user3 "{}"] ""
             (GoError "unexpected end of JSON input" None [])).
    + constructor.
    + by vm_compute; eauto.
    + reflexivity.
    + reflexivity.
  - intros reason. apply Hfine.
    eapply Forall_impl; [exact batch_has_baselines|]. by intros c [? _].
Defined.

(** C5 as stated fails when an earlier command does not convert: the
    batch holds a command without a baseline, and [mapCommands] returns
    the conversion error of the first command instead of panicking. *)
Lemma panics_without_baseline_fails :
  ¬ @panics_without_baseline (scripted fetched)
      [added user1 ""; added user3 "{}"] fetched.
Proof.
  intros H. destruct H as [reason H]; [|by vm_compute in H].
  exists (added user3 "{}"). split; [repeat constructor|]. by intros [? [=]].
Qed.

(** * The retry loop of insertEvents *)

Section InsertFacts.
Context `{env : Env}.
Implicit Types (w : World) (calls : list Op).

Lemma trace_log_OnError w err msg : trace (log_OnError w err msg) = trace w.
Proof. by destruct err. Qed.

Lemma issued_app w w' calls : trace w' = trace w ++ calls → issued w w' = calls.
Proof. unfold issued. intros ->. by rewrite drop_app_length. Qed.

(** Every run of the loop is an [insert_run]. *)
Lemma insert_loop_run n : ∀ w query args rows err w' exit,
  insert_loop n w query args rows err = (w', exit) →
  ∃ calls,
    trace w' = trace w ++ calls ∧
    insert_run query args n rows err calls exit.
Proof.
  induction n as [|n IH]; intros w query args rows err w' exit;
    cbn [insert_loop].
  { intros [= <- <-]. exists []. rewrite app_nil_r. split; [done|constructor]. }
  unfold ExecContext, QueryContext.
  destruct (tx_ExecContext (conn w) "SAVEPOINT insert") as [c1 [e|]].
  { intros [= <- <-]. eexists. split; [done|constructor]. }
  cbn [conn record].
  destruct (tx_QueryContext c1 query args) as [c2 [qerr|rs]].
  - destruct (errIsRetryable (Some qerr)) eqn:Hretry.
    + cbn [conn log_WithError record].
      destruct (tx_ExecContext c2 "ROLLBACK TO SAVEPOINT insert")
        as [c3 rerr].
      intros (calls & Htrace & Hrun)%IH.
      rewrite trace_log_OnError in Htrace.
      cbn [trace record log_WithError] in Htrace.
      eexists. split; [|by apply run_retry].
      rewrite Htrace, <-!app_assoc. done.
    + intros [= <- <-]. eexists. split; [|by apply run_stopped].
      cbn. by rewrite <-app_assoc.
  - cbn [conn record].
    destruct (tx_ExecContext c2 "RELEASE SAVEPOINT insert") as [c3 rerr].
    intros [= <- <-]. eexists. split; [|apply run_inserted].
    cbn. by rewrite <-!app_assoc.
Qed.

(** The retry bound: a run with [n] iterations left sends at most [n]
    inserts. *)
Lemma insert_run_bound query args n rows err calls exit :
  insert_run query args n rows err calls exit →
  (length (filter (λ op, is_query op = true) calls) ≤ n)%nat.
Proof.
  induction 1; rewrite ?filter_cons, ?filter_nil; cbn [is_query];
    repeat case_decide; try done; cbn [length] in *; lia.
Qed.

Lemma insert_run_calls query args n rows err calls exit :
  insert_run query args n rows err calls exit →
  Forall (insert_call query args) calls.
Proof.
  induction 1;
    repeat (apply Forall_cons; split); try apply Forall_nil; try done;
    unfold insert_call;
    first [ by left; eexists
          | by right; left; eexists
          | by right; right; left; eexists
          | by right; right; right; eexists ].
Qed.

(** A run in which an insert was answered by a non-retryable error made no
    call after that insert, and leaves the loop with that error. *)
Lemma insert_run_stop query args n rows err calls exit :
  insert_run query args n rows err calls exit →
  ∀ pre q a e post,
    calls = pre ++ OpQuery q a (inl e) :: post →
    errIsRetryable (Some e) = false →
    post = [] ∧ exit = LoopEnd None (Some e).
Proof.
  induction 1 as [| |n rows err qerr rerr calls exit Hretry Hrun IH| |];
    intros pre q a fatal post Hcalls Hfatal.
  - by destruct pre.
  - by destruct pre as [|? [|? ?]].
  - destruct pre as [|? [|? [|? pre]]]; simplify_eq/=.
    + congruence.
    + by eapply IH.
  - destruct pre as [|? [|? [|? ?]]]; by simplify_eq/=.
  - destruct pre as [|? [|? [|? [|? ?]]]]; by simplify_eq/=.
Qed.

(** What the scan has done when it returns events: every event is the
    draft at its position with some creation time, and the row at position
    [k] gave the creation time of the event at position [i + k]. *)
Lemma scan_rows_returns pending : ∀ i events events',
  scan_rows i pending events = Returns (inr events') →
  length events' = length events ∧
  (∀ k e, events !! k = Some e →
     ∃ t, events' !! k = Some (set_createdAt e t)) ∧
  (∀ k, (k < i)%nat → events' !! k = events !! k) ∧
  (∀ k r, pending !! k = Some r →
     ∃ t e, r = inr t ∧ events' !! (i + k)%nat = Some e ∧ createdAt e = t).
Proof.
  induction pending as [|r pending IH]; intros i events events';
    cbn [scan_rows].
  { intros [= <-]. split; [done|]. split; [|by split].
    intros k e Hk. exists (createdAt e). rewrite Hk. by destruct e. }
  destruct (events !! i) as [e0|] eqn:Hi; [|done].
  destruct r as [err|t0]; [done|].
  intros (Hlen & Hfields & Hbefore & Hrows)%IH.
  assert (i < length events)%nat as Hlt by (by eapply lookup_lt_Some).
  rewrite length_insert in Hlen.
  split; [done|]. split; [|split].
  - intros k e Hk. destruct (decide (k = i)) as [->|Hne].
    + rewrite Hi in Hk. injection Hk as <-.
      apply (Hfields i (set_createdAt e0 t0)).
      by apply list_lookup_insert_eq.
    + apply Hfields. by rewrite list_lookup_insert_ne.
  - intros k Hk. rewrite Hbefore by lia.
    apply list_lookup_insert_ne. lia.
  - intros [|k] r Hr.
    + injection Hr as <-. exists t0, (set_createdAt e0 t0).
      rewrite Nat.add_0_r, Hbefore by lia.
      by rewrite list_lookup_insert_eq.
    + cbn in Hr. replace (i + S k)%nat with (S i + k)%nat by lia.
      by apply Hrows.
Qed.

Lemma after_loop_returns events rows err events' :
  after_loop events rows err = Returns (inr events') →
  ∃ rs, rows = Some rs ∧ err = None ∧ rows_Err rs = None ∧
        scan_rows 0 (rows_scan rs) events = Returns (inr events').
Proof.
  unfold after_loop. destruct err; [done|]. destruct rows as [rs|]; [|done].
  destruct (scan_rows 0 (rows_scan rs) events) as [[?|?]|] eqn:Hscan;
    [done| |done].
  destruct (rows_Err rs) eqn:Herr; [done|]. intros [= <-]. by exists rs.
Qed.

(** A run of [insertEvents]: either [mapCommands] did not hand back events
    and the transaction was not touched, or the loop ran once for the
    statement and arguments that [mapCommands] handed back. *)
Lemma insertEvents_inv w sequences commands w' res :
  insertEvents w sequences commands = (w', res) →
  (w' = w ∧
   (∀ sequences' m,
      mapCommands commands sequences ≠ Returns (sequences', inr m)) ∧
   (∀ events, res ≠ Returns (inr events))) ∨
  (∃ sequences' m calls exit,
     mapCommands commands sequences = Returns (sequences', inr m) ∧
     trace w' = trace w ++ calls ∧
     insert_run (insertStatement (m_placeHolders m)) (m_args m)
       maxRetries None None calls exit ∧
     res = leave (m_events m) exit).
Proof.
  unfold insertEvents.
  destruct (mapCommands commands sequences) as [[sequences' [err|m]]|p].
  - intros [= <- <-]. by left.
  - destruct (insert_loop _ _ _ _ _ _) as [w1 exit] eqn:Hloop.
    apply insert_loop_run in Hloop as (calls & Htrace & Hrun).
    intros Hres. right. exists sequences', m, calls, exit.
    destruct exit; by simplify_eq.
  - intros [= <- <-]. by left.
Qed.

(** C7. When an insert of the retry loop is answered by an error that the
    classifier does not mark retryable, no call on the transaction follows
    that insert: no further savepoint, no further attempt; and
    [insertEvents] returns that very error. *)
Theorem insertEvents_stops_on_fatal w sequences commands w' res
    pre query args fatal post :
  insertEvents w sequences commands = (w', res) →
  issued w w' = pre ++ OpQuery query args (inl fatal) :: post →
  errIsRetryable (Some fatal) = false →
  post = [] ∧ res = Returns (inl fatal).
Proof.
  intros [[-> _]|(sequences' & m & calls & exit & _ & Htrace & Hrun & ->)]
    %insertEvents_inv Hissued Hfatal.
  { unfold issued in Hissued. rewrite drop_all in Hissued. by destruct pre. }
  rewrite (issued_app _ _ _ Htrace) in Hissued.
  destruct (insert_run_stop _ _ _ _ _ _ _ Hrun _ _ _ _ _ Hissued Hfatal)
    as [-> ->].
  done.
Qed.

(** C8. The statement and the arguments, and with them the sequence
    numbers, come from the one call of [mapCommands] on the inputs: every
    call that [insertEvents] makes on the transaction is a savepoint call or
    the insert with exactly that statement and those arguments (so no
    baseline is fetched again), at most [maxRetries] inserts are sent, and
    the events handed back carry the sequence numbers of the drafts. *)
Theorem insertEvents_same_insert w sequences commands w' res sequences' m :
  insertEvents w sequences commands = (w', res) →
  mapCommands commands sequences = Returns (sequences', inr m) →
  Forall (insert_call (insertStatement (m_placeHolders m)) (m_args m))
    (issued w w') ∧
  (length (filter (λ op, is_query op = true) (issued w w')) ≤ maxRetries)%nat ∧
  ∀ events, res = Returns (inr events) →
    sequence <$> events = sequence <$> m_events m.
Proof.
  intros [(_ & Hno & _)
         |(sequences1 & m1 & calls & exit & Hmap & Htrace & Hrun & ->)]
    %insertEvents_inv Hm; [by destruct (Hno _ _ Hm)|].
  rewrite Hmap in Hm. injection Hm as <- <-.
  rewrite (issued_app _ _ _ Htrace).
  split; [by eapply insert_run_calls|].
  split; [by eapply insert_run_bound|].
  intros events Hres. destruct exit as [|rows err]; [done|].
  apply after_loop_returns in Hres as (rs & _ & _ & _ & Hscan).
  apply scan_rows_returns in Hscan as (Hlen & Hfields & _ & _).
  apply list_eq_same_length with (length events);
    [by rewrite length_fmap|by rewrite length_fmap|].
  intros k x y _. rewrite !list_lookup_fmap.
  destruct (m_events m1 !! k) as [e|] eqn:He.
  - destruct (Hfields k e He) as [t ->]. cbn. congruence.
  - apply lookup_ge_None in He. rewrite <-Hlen in He.
    apply lookup_ge_None in He. by rewrite He.
Qed.

(** Exhaustion against any database: when every insert is answered by a
    retryable error and every savepoint call by nil, the loop ends with
    [rows] and [err] both nil, and [insertEvents] panics on the nil rows. *)
Lemma insert_loop_exhausted n : ∀ w query args rows err,
  (∀ c q a, ∃ e, (tx_QueryContext c q a).2 = inl e ∧
                 errIsRetryable (Some e) = true) →
  (∀ c q, (tx_ExecContext c q).2 = None) →
  (insert_loop (S n) w query args rows err).2 = LoopEnd None None.
Proof.
  intros w query args rows err Hquery Hexec.
  assert (∀ w rows err k,
            (∀ w, (insert_loop k w query args None None).2
                  = LoopEnd None None) →
            (insert_loop (S k) w query args rows err).2
            = LoopEnd None None) as Hstep.
  { clear w rows err. intros w rows err k Hk. cbn [insert_loop].
    unfold ExecContext, QueryContext.
    pose proof (Hexec (conn w) "SAVEPOINT insert") as H1.
    destruct (tx_ExecContext (conn w) "SAVEPOINT insert") as [c1 r1].
    cbn in H1. subst r1. cbn [conn record].
    destruct (Hquery c1 query args) as (e & H2 & Hretry).
    destruct (tx_QueryContext c1 query args) as [c2 r2].
    cbn in H2. subst r2. rewrite Hretry. cbn [conn record log_WithError].
    pose proof (Hexec c2 "ROLLBACK TO SAVEPOINT insert") as H3.
    destruct (tx_ExecContext c2 "ROLLBACK TO SAVEPOINT insert") as [c3 r3].
    cbn in H3. subst r3. apply Hk. }
  apply Hstep. clear w rows err.
  induction n as [|n IH]; intros w; [done|]. by apply Hstep.
Qed.

Lemma insertEvents_exhausted w sequences commands sequences' m :
  mapCommands commands sequences = Returns (sequences', inr m) →
  (∀ c q a, ∃ e, (tx_QueryContext c q a).2 = inl e ∧
                 errIsRetryable (Some e) = true) →
  (∀ c q, (tx_ExecContext c q).2 = None) →
  (insertEvents w sequences commands).2
  = Panics "invalid memory address or nil pointer dereference".
Proof.
  intros Hmap Hquery Hexec. unfold insertEvents. rewrite Hmap.
  pose proof (insert_loop_exhausted 4 w (insertStatement (m_placeHolders m))
                (m_args m) None None Hquery Hexec) as Hloop.
  change (S 4) with maxRetries in Hloop.
  destruct (insert_loop maxRetries _ _ _ _ _) as [w1 exit].
  cbn in Hloop. by subst exit.
Qed.

(** A run that leaves the loop with rows sent the insert that was
    answered by these rows. *)
Lemma insert_run_rows query args n rows err calls exit :
  insert_run query args n rows err calls exit →
  ∀ rs rerr, exit = LoopEnd (Some rs) rerr →
    rows = Some rs ∨ OpQuery query args (inr rs) ∈ calls.
Proof.
  induction 1 as [| |n rows err qerr rerr' calls exit Hretry Hrun IH| |];
    intros rs0 rerr0 Hexit; simplify_eq.
  - by left.
  - destruct (IH rs0 rerr0 eq_refl) as [?|?]; [done|].
    right. by do 3 apply list_elem_of_further.
  - right. apply list_elem_of_further, list_elem_of_here.
Qed.

(** What [insertEvents] hands back on success: one event per command, the
    event at position [i] being the draft built from command [i] with a
    creation time; the rows that answered the insert gave, row [i], the
    creation time of event [i]. *)
Lemma insertEvents_returns w sequences commands w' events :
  insertEvents w sequences commands = (w', Returns (inr events)) →
  length events = length commands ∧
  (∀ i c, commands !! i = Some c →
     ∃ s draft t, commandToEvent s c = inr draft ∧
                  events !! i = Some (set_createdAt draft t)) ∧
  ∃ query args rs,
    OpQuery query args (inr rs) ∈ issued w w' ∧
    ∀ i r, rows_scan rs !! i = Some r →
      ∃ t e, r = inr t ∧ events !! i = Some e ∧ createdAt e = t.
Proof.
  intros [(_ & _ & Hno)
         |(sequences' & m & calls & exit & Hmap & Htrace & Hrun & Hres)]
    %insertEvents_inv; [by destruct (Hno events)|].
  destruct exit as [|rows err]; [done|]. symmetry in Hres.
  apply after_loop_returns in Hres as (rs & -> & -> & _ & Hscan).
  apply scan_rows_returns in Hscan as (Hlen & Hfields & _ & Hrows).
  apply mapCommands_from_returns in Hmap as (drafts & Hev & Hall & _).
  cbn [m_events app] in Hev. subst drafts.
  split; [by rewrite Hlen, (Forall2_length _ _ _ Hall)|].
  split.
  - intros i c Hc.
    destruct (Forall2_lookup_l _ _ _ _ _ Hall Hc) as (draft & Hd & s & Hs).
    destruct (Hfields i draft Hd) as [t Ht]. by exists s, draft, t.
  - exists (insertStatement (m_placeHolders m)), (m_args m), rs.
    rewrite (issued_app _ _ _ Htrace). split; [|exact Hrows].
    by destruct (insert_run_rows _ _ _ _ _ _ _ Hrun rs None eq_refl).
Qed.

End InsertFacts.

(** * The orchestrator *)

Section PushFacts.
Context `{env : Env}.
Implicit Types (w : World) (calls : list Op).

Lemma Begin_trace w w0 r :
  Begin w = (w0, r) → trace w0 = trace w ++ [OpBegin r].
Proof.
  unfold Begin. destruct (client_Begin (conn w)). by intros [= <- <-].
Qed.

Lemma latestSequences_trace w commands w1 r :
  latestSequences w commands = (w1, r) →
  trace w1 = trace w ++ [OpLatestSequences r].
Proof.
  unfold latestSequences. destruct (run_latestSequences (conn w) commands).
  by intros [= <- <-].
Qed.

Lemma handleUniqueConstraints_trace w commands w3 r :
  handleUniqueConstraints w commands = (w3, r) →
  trace w3 = trace w ++ [OpUniqueConstraints r].
Proof.
  unfold handleUniqueConstraints.
  destruct (run_handleUniqueConstraints (conn w) commands).
  by intros [= <- <-].
Qed.

Lemma insert_call_not_commit query args op :
  insert_call query args op → is_commit op = false.
Proof. by intros [[? ->]|[[? ->]|[[? ->]|[? ->]]]]. Qed.

Lemma insertEvents_trace w sequences commands w' res :
  insertEvents w sequences commands = (w', res) →
  ∃ calls, trace w' = trace w ++ calls ∧
           Forall (λ op, is_commit op = false) calls.
Proof.
  intros [[-> _]|(sequences' & m & calls & exit & _ & Htrace & Hrun & _)]
    %insertEvents_inv.
  { exists []. by rewrite app_nil_r. }
  exists calls. split; [done|].
  eapply Forall_impl; [by eapply insert_run_calls|].
  intros op. apply insert_call_not_commit.
Qed.

Lemma phase_fails_trace w commands e wf :
  phase_fails w commands e wf →
  ∃ calls, trace wf = trace w ++ calls ∧
           Forall (λ op, is_commit op = false) calls.
Proof.
  destruct 1 as [w0 w1 e Hb Hl|w0 w1 sequences w2 e Hb Hl Hi
                |w0 w1 sequences w2 events w3 e Hb Hl Hi Hu];
    apply Begin_trace in Hb; apply latestSequences_trace in Hl;
    try apply insertEvents_trace in Hi as (calls & Hi & Hcalls);
    try apply handleUniqueConstraints_trace in Hu;
    eexists; (split; [|shelve]).
  - rewrite Hl, Hb, <-app_assoc. done.
  - rewrite Hi, Hl, Hb, <-!app_assoc. done.
  - rewrite Hu, Hi, Hl, Hb, <-!app_assoc. done.
  Unshelve.
  all: rewrite ?Forall_app, ?Forall_cons, ?Forall_nil; by repeat split.
Qed.

Lemma Push_of_phase_fails w commands e wf :
  phase_fails w commands e wf →
  Push w commands
  = ((Push_deferred wf None (Some e)).1,
     Returns (Push_deferred wf None (Some e)).2).
Proof.
  destruct 1 as [w0 w1 e Hb Hl|w0 w1 sequences w2 e Hb Hl Hi
                |w0 w1 sequences w2 events w3 e Hb Hl Hi Hu];
    unfold Push; rewrite Hb, Hl, ?Hi, ?Hu;
    by destruct (Push_deferred _ None (Some e)).
Qed.

Lemma Push_of_phases_succeed w commands events w3 :
  phases_succeed w commands events w3 →
  Push w commands
  = ((Push_deferred w3 (Some events) None).1,
     Returns (Push_deferred w3 (Some events) None).2).
Proof.
  destruct 1 as [w0 w1 sequences w2 events w3 Hb Hl Hi Hu].
  unfold Push. rewrite Hb, Hl, Hi, Hu.
  by destruct (Push_deferred _ (Some events) None).
Qed.

(** The ways a call of [Push] can go. *)
Lemma Push_cases w commands :
  (∃ w0 e, Begin w = (w0, Some e) ∧
           Push w commands = (w0, Returns (None, Some e))) ∨
  (∃ e wf, phase_fails w commands e wf) ∨
  (∃ events w3, phases_succeed w commands events w3) ∨
  (∃ w0 w1 sequences w2 reason,
     Begin w = (w0, None) ∧
     latestSequences w0 commands = (w1, inr sequences) ∧
     insertEvents w1 sequences commands = (w2, Panics reason) ∧
     Push w commands = ((Push_deferred w2 None None).1, Panics reason)).
Proof.
  destruct (Begin w) as [w0 [e|]] eqn:Hb.
  { left. exists w0, e. split; [done|]. unfold Push. by rewrite Hb. }
  right.
  destruct (latestSequences w0 commands) as [w1 [e|sequences]] eqn:Hl.
  { left. exists e, w1. by eapply fails_latestSequences. }
  destruct (insertEvents w1 sequences commands)
    as [w2 [[e|events]|reason]] eqn:Hi.
  - left. exists e, w2. by eapply fails_insertEvents.
  - destruct (handleUniqueConstraints w2 commands) as [w3 [e|]] eqn:Hu.
    + left. exists e, w3. by eapply fails_handleUniqueConstraints.
    + right. left. exists events, w3. by eapply phases_ok.
  - right. right. exists w0, w1, sequences, w2, reason.
    repeat split; try done. unfold Push. rewrite Hb, Hl, Hi.
    by destruct (Push_deferred _ None None).
Qed.

Lemma phases_succeed_insert w commands events w3 :
  phases_succeed w commands events w3 →
  ∃ w1 sequences w2 before after,
    insertEvents w1 sequences commands = (w2, Returns (inr events)) ∧
    trace w1 = trace w ++ before ∧ trace w3 = trace w2 ++ after.
Proof.
  destruct 1 as [w0 w1 sequences w2 events w3 Hb Hl Hi Hu].
  apply Begin_trace in Hb. apply latestSequences_trace in Hl.
  apply handleUniqueConstraints_trace in Hu.
  exists w1, sequences, w2. do 2 eexists. split; [done|]. split; [|done].
  by rewrite Hl, Hb, <-app_assoc.
Qed.

Lemma Push_after_failure w commands e wf :
  phase_fails w commands e wf →
  ∃ w' txErr,
    Push w commands = (w', Returns (None, Some e)) ∧
    issued wf w' = [OpRollback txErr] ∧
    Forall (λ op, is_commit op = false) (issued w w') ∧
    logs w' = logs wf ++
      match txErr with
      | Some r => [{| log_msg := "unable to rollback transaction";
                      log_err := Some r |}]
      | None => []
      end.
Proof.
  intros Hphase. rewrite (Push_of_phase_fails _ _ _ _ Hphase).
  destruct (phase_fails_trace _ _ _ _ Hphase) as (calls & Htrace & Hcalls).
  unfold Push_deferred, Rollback.
  destruct (tx_Rollback (conn wf)) as [c txErr]. cbn [fst snd].
  eexists _, txErr. split; [done|].
  assert (trace (log_OnError (record wf c (OpRollback txErr)) txErr
                   "unable to rollback transaction")
          = trace wf ++ [OpRollback txErr]) as Hw'
    by (by rewrite trace_log_OnError).
  split; [by apply issued_app|]. split.
  - rewrite (issued_app w _ (calls ++ [OpRollback txErr])).
    + apply Forall_app. by repeat constructor.
    + by rewrite Hw', Htrace, <-app_assoc.
  - destruct txErr; cbn; [done|by rewrite app_nil_r].
Qed.

Lemma Push_after_success w commands events w3 :
  phases_succeed w commands events w3 →
  ∃ w' err,
    Push w commands = (w', Returns (Some events, err)) ∧
    issued w3 w' = [OpCommit err].
Proof.
  intros Hphase. rewrite (Push_of_phases_succeed _ _ _ _ Hphase).
  unfold Push_deferred, Commit.
  destruct (tx_Commit (conn w3)) as [c err]. cbn [fst snd].
  eexists _, err. split; [done|]. by apply issued_app.
Qed.

Lemma Push_success_only w commands w' res :
  Push w commands = (w', Returns res) →
  (∃ r, OpCommit r ∈ issued w w') ∨ is_Some res.1 →
  ∃ events w3, phases_succeed w commands events w3 ∧ res.1 = Some events.
Proof.
  intros HPush Hobs.
  destruct (Push_cases w commands)
    as [(w0 & e & Hb & HP)|[(e & wf & Hphase)|[(events & w3 & Hphase)
       |(w0 & w1 & sequences & w2 & reason & _ & _ & _ & HP)]]].
  - rewrite HP in HPush. injection HPush as <- <-.
    apply Begin_trace in Hb. rewrite (issued_app _ _ _ Hb) in Hobs.
    destruct Hobs as [[r Hr]|[? [=]]].
    apply list_elem_of_singleton in Hr. done.
  - destruct (Push_after_failure _ _ _ _ Hphase)
      as (w'' & txErr & HP & _ & Hno & _).
    rewrite HP in HPush. injection HPush as <- <-.
    destruct Hobs as [[r Hr]|[? [=]]].
    rewrite Forall_forall in Hno. by apply Hno in Hr.
  - exists events, w3. split; [done|].
    rewrite (Push_of_phases_succeed _ _ _ _ Hphase) in HPush.
    injection HPush as _ <-. unfold Push_deferred.
    by destruct (Commit w3).
  - by rewrite HP in HPush.
Qed.

(** X22. The runs of [Push] in which no phase panics.  When a phase
    (sequence lookup, insert, uniqueness handling) returns an error, [Push]
    calls [Rollback] right after it, makes no [Commit], and returns that
    error with no events; the answer of [Rollback] only decides whether a
    line is logged.  When all phases succeed, [Push] calls [Commit] and
    returns the events (with the answer of [Commit]).  A [Push] that
    returns has called [Commit], or hands back events, only when all phases
    succeeded. *)
Theorem Push_rolls_back_or_commits w commands :
  (∀ e wf, phase_fails w commands e wf →
     ∃ w' txErr,
       Push w commands = (w', Returns (None, Some e)) ∧
       issued wf w' = [OpRollback txErr] ∧
       Forall (λ op, is_commit op = false) (issued w w') ∧
       logs w' = logs wf ++
         match txErr with
         | Some r => [{| log_msg := "unable to rollback transaction";
                         log_err := Some r |}]
         | None => []
         end) ∧
  (∀ events w3, phases_succeed w commands events w3 →
     ∃ w' err,
       Push w commands = (w', Returns (Some events, err)) ∧
       issued w3 w' = [OpCommit err]) ∧
  (∀ w' res, Push w commands = (w', Returns res) →
     (∃ r, OpCommit r ∈ issued w w') ∨ is_Some res.1 →
     ∃ events w3, phases_succeed w commands events w3 ∧ res.1 = Some events).
Proof.
  split; [|split].
  - intros e wf. apply Push_after_failure.
  - intros events w3. apply Push_after_success.
  - intros w' res. apply Push_success_only.
Qed.

(** C6. After a successful [Push] the events are as many as the commands;
    the event at position [i] is the draft that [commandToEvent] builds
    from command [i], with a creation time; and the rows by which the
    database answered the insert gave, row [i], the creation time of event
    [i]. *)
Theorem Push_events_in_order w commands w' events :
  Push w commands = (w', Returns (Some events, None)) →
  length events = length commands ∧
  (∀ i c, commands !! i = Some c →
     ∃ s draft t, commandToEvent s c = inr draft ∧
                  events !! i = Some (set_createdAt draft t)) ∧
  ∃ query args rs,
    OpQuery query args (inr rs) ∈ issued w w' ∧
    ∀ i r, rows_scan rs !! i = Some r →
      ∃ t e, r = inr t ∧ events !! i = Some e ∧ createdAt e = t.
Proof.
  intros HPush.
  destruct (Push_success_only _ _ _ _ HPush)
    as (events' & w3 & Hphase & Hev); [right; by eexists|].
  cbn in Hev. injection Hev as <-.
  destruct (phases_succeed_insert _ _ _ _ Hphase)
    as (w1 & sequences & w2 & before & after & Hi & Hw1 & Hw3).
  pose proof Hi as (Hlen & Hdrafts & query & args & rs & Hin & Hrows)
    %insertEvents_returns.
  split; [done|]. split; [done|]. exists query, args, rs. split; [|done].
  rewrite (Push_of_phases_succeed _ _ _ _ Hphase) in HPush.
  injection HPush as <- _. unfold Push_deferred, Commit.
  destruct (tx_Commit (conn w3)) as [c err]. cbn [fst].
  destruct (insertEvents_trace _ _ _ _ _ Hi) as (calls & Hw2 & _).
  rewrite (issued_app _ _ _ Hw2) in Hin.
  rewrite (issued_app w _ (before ++ calls ++ after ++ [OpCommit err])).
  - rewrite !elem_of_app. auto.
  - cbn. by rewrite Hw3, Hw2, Hw1, <-!app_assoc.
Qed.

(** What the deferred function does when [insertEvents] panics: the named
    result [err] is nil at that point, so it calls [Commit], on a
    transaction in which nothing was inserted, and the panic goes on. *)
Lemma Push_panic_runs_deferred w commands w0 w1 sequences w2 reason :
  Begin w = (w0, None) →
  latestSequences w0 commands = (w1, inr sequences) →
  insertEvents w1 sequences commands = (w2, Panics reason) →
  Push w commands = ((Commit w2).1, Panics reason).
Proof.
  intros Hb Hl Hi. unfold Push. rewrite Hb, Hl, Hi.
  unfold Push_deferred. by destruct (Commit w2).
Qed.

End PushFacts.

(** * The pipeline run against the scripted database *)

Lemma batch_mapped :
  @mapCommands (scripted fetched) batch fetched
  = Returns (batch_counted, inr batch_drafts).
Proof. by vm_compute. Qed.

Lemma insertEvents_stops_on_fatal_witness :
  (insertEvents rejected fetched batch).2 = Returns (inl syntax_error).
Proof.
  refine (proj2 (insertEvents_stops_on_fatal rejected fetched batch
                   (insertEvents rejected fetched batch).1 _
                   [OpExec "SAVEPOINT insert" None]
                   batch_statement
                   (m_args batch_drafts) syntax_error [] _ _ _));
    by vm_compute.
Defined.

Lemma insertEvents_same_insert_witness :
  Forall (insert_call batch_statement
            (m_args batch_drafts))
    (issued retried_once (insertEvents retried_once fetched batch).1) ∧
  length (issued retried_once (insertEvents retried_once fetched batch).1)
  = 6%nat.
Proof.
  split; [|by vm_compute].
  refine (proj1 (insertEvents_same_insert retried_once fetched batch
                   (insertEvents retried_once fetched batch).1
                   (insertEvents retried_once fetched batch).2
                   batch_counted batch_drafts _ batch_mapped)).
  by vm_compute.
Defined.

Lemma rejected_fails :
  phase_fails rejected batch syntax_error
    (insertEvents (latestSequences (Begin rejected).1 batch).1 fetched batch).1.
Proof.
  eapply fails_insertEvents with (w0 := (Begin rejected).1)
    (w1 := (latestSequences (Begin rejected).1 batch).1)
    (sequences := fetched); by vm_compute.
Qed.

Lemma retried_once_succeeds :
  phases_succeed retried_once batch pushed
    (handleUniqueConstraints
       (insertEvents (latestSequences (Begin retried_once).1 batch).1
          fetched batch).1 batch).1.
Proof.
  eapply phases_ok with (w0 := (Begin retried_once).1)
    (w1 := (latestSequences (Begin retried_once).1 batch).1)
    (sequences := fetched)
    (w2 := (insertEvents (latestSequences (Begin retried_once).1 batch).1
              fetched batch).1); by vm_compute.
Qed.

Lemma Push_rolls_back_or_commits_witness :
  (∃ w' txErr, Push rejected batch = (w', Returns (None, Some syntax_error)) ∧
               OpRollback txErr ∈ trace w') ∧
  (∃ w' err, Push retried_once batch = (w', Returns (Some pushed, err)) ∧
             OpCommit err ∈ trace w').
Proof.
  split.
  - destruct (proj1 (Push_rolls_back_or_commits rejected batch) _ _
                rejected_fails) as (w' & txErr & HPush & Hrollback & _).
    exists w', txErr. split; [exact HPush|].
    unfold issued in Hrollback.
    rewrite <-(take_drop (length (trace
      (insertEvents (latestSequences (Begin rejected).1 batch).1
         fetched batch).1)) (trace w')), Hrollback.
    apply elem_of_app. right. apply list_elem_of_here.
  - destruct (proj1 (proj2 (Push_rolls_back_or_commits retried_once batch))
                _ _ retried_once_succeeds) as (w' & err & HPush & Hcommit).
    exists w', err. split; [exact HPush|].
    unfold issued in Hcommit.
    rewrite <-(take_drop (length (trace
      (handleUniqueConstraints
         (insertEvents (latestSequences (Begin retried_once).1 batch).1
            fetched batch).1 batch).1)) (trace w')), Hcommit.
    apply elem_of_app. right. apply list_elem_of_here.
Defined.

Lemma Push_events_in_order_witness :
  length pushed = length batch ∧ createdAt <$> pushed = [100; 101; 102].
Proof.
  split; [|by vm_compute].
  refine (proj1 (Push_events_in_order retried_once batch
                   (Push retried_once batch).1 pushed _)).
  by vm_compute.
Defined.

(** C3, at a database that answers every insert by a serialization
    failure and every rollback to the savepoint by success.  Five inserts
    are sent, all answered by the retryable error; the answer of the last
    rollback, nil, is then the value of [err], the check after the loop
    passes, and [rows.Next()] is called on the nil [rows]: [insertEvents]
    panics and does not return the error. *)
Theorem insertEvents_exhaustion_panics :
  errIsRetryable (Some serialization_failure) = true ∧
  filter (λ op, is_query op = true)
    (issued contended (insertEvents contended fetched batch).1)
  = replicate 5
      (OpQuery batch_statement
         (m_args batch_drafts) (inl serialization_failure)) ∧
  (insertEvents contended fetched batch).2
  = Panics "invalid memory address or nil pointer dereference" ∧
  (insertEvents contended fetched batch).2
  ≠ Returns (inl serialization_failure).
Proof. by vm_compute. Qed.

(** * More on the in-memory log storage *)

Lemma int_wrap_small z : - MaxInt - 1 ≤ z ≤ MaxInt → int_wrap z = z.
Proof.
  unfold int_wrap, MaxInt. intros ?. rewrite Z.mod_small by lia. lia.
Qed.

Lemma sum_of_app sizes sizes' :
  sum_of (sizes ++ sizes') = sum_of sizes + sum_of sizes'.
Proof.
  unfold sum_of. induction sizes as [|n sizes IH]; cbn; [done|].
  rewrite IH. lia.
Qed.

Section LogstoreOperationsFacts.
Context {LogRecord Clock Quota : Type} (ts : LogRecord → Time)
        (Now : Clock → Time).
Implicit Types (l : @InmemLogStorage LogRecord Clock Quota).

Lemma clean_loop from (records clean : list LogRecord) :
  foldl (λ clean r, if After (ts r) from then clean ++ [r] else clean)
        clean records
  = clean ++ filter (λ r, from < ts r) records.
Proof.
  revert clean. induction records as [|r records IH]; intros clean.
  { by rewrite app_nil_r. }
  cbn [foldl]. rewrite IH, filter_cons. unfold After.
  destruct (decide (from < ts r)).
  - rewrite bool_decide_eq_true_2 by done. by rewrite <-app_assoc.
  - by rewrite bool_decide_eq_false_2 by done.
Qed.

Lemma length_filter_le (P Q : LogRecord → Prop)
    `{!∀ r, Decision (P r), !∀ r, Decision (Q r)} (records : list LogRecord) :
  (∀ r, P r → Q r) →
  (length (filter P records) ≤ length (filter Q records))%nat.
Proof.
  intros HPQ. induction records as [|r records IH]; [done|].
  rewrite !filter_cons.
  destruct (decide (P r)) as [HP|HP], (decide (Q r)) as [HQ|HQ];
    cbn [length]; try lia.
  exfalso. by apply HQ, HPQ.
Qed.

Lemma Cleanup_filter l keep :
  Cleanup ts Now l keep
  = ({| clock := clock l;
        emitted := filter (λ r, cutoff Now l keep < ts r) (emitted l);
        bulks := bulks l; quota := quota l |}, None).
Proof. unfold Cleanup. by rewrite clean_loop. Qed.

(** X13. [Cleanup] keeps, in their order, the records that are at most [keep]
    old on the storage's clock, a record exactly [keep] old included, and
    drops the others; it changes nothing else and returns nil.  [keep + 1]
    and its negation are within the range of [time.Duration]. *)
Theorem Cleanup_keeps_recent l keep :
  - MaxInt - 1 ≤ keep < MaxInt →
  Cleanup ts Now l keep
  = ({| clock := clock l;
        emitted := filter (λ r, Now (clock l) - ts r ≤ keep) (emitted l);
        bulks := bulks l; quota := quota l |}, None).
Proof.
  intros Hkeep. rewrite Cleanup_filter. do 2 f_equal.
  apply list_filter_iff. intros r. unfold cutoff.
  rewrite (int_wrap_small (keep + 1)) by lia.
  rewrite int_wrap_small by lia. lia.
Qed.

(** X14. Cleaning up twice in a row, the clock not having moved, is cleaning up
    once. *)
Theorem Cleanup_idempotent l keep :
  Cleanup ts Now (Cleanup ts Now l keep).1 keep = Cleanup ts Now l keep.
Proof.
  rewrite !Cleanup_filter. cbn [fst clock emitted bulks quota].
  do 2 f_equal. unfold cutoff. cbn [clock].
  rewrite list_filter_filter. apply list_filter_iff. tauto.
Qed.

(** X15. [Cleanup] does not change what [QueryUsage] counts from a start that is
    not before the cut-off. *)
Theorem QueryUsage_after_Cleanup l keep start :
  Z.of_nat (length (emitted l)) ≤ MaxInt →
  cutoff Now l keep ≤ start →
  (QueryUsage ts (Cleanup ts Now l keep).1 start).2
  = (QueryUsage ts l start).2.
Proof.
  intros Hlen Hstart. rewrite Cleanup_filter. unfold QueryUsage.
  cbn [fst snd emitted]. f_equal.
  pose proof (length_filter (λ r, cutoff Now l keep < ts r) (emitted l))
    as Hle.
  unfold MaxInt in Hlen.
  rewrite !(count_loop ts) by (unfold MaxUint64; lia).
  do 3 f_equal. rewrite list_filter_filter. apply list_filter_iff.
  intros r. split; [tauto|]. intros ?. split; [done|lia].
Qed.

(** X16. A later start never counts more. *)
Theorem QueryUsage_antitone l start start' :
  Z.of_nat (length (emitted l)) ≤ MaxInt →
  start ≤ start' →
  (QueryUsage ts l start').2.1 ≤ (QueryUsage ts l start).2.1.
Proof.
  intros Hlen Hstart. unfold QueryUsage. cbn [fst snd]. unfold MaxInt in Hlen.
  rewrite !(count_loop ts) by (unfold MaxUint64; lia).
  apply inj_le with (n := length (filter (λ r, start' < ts r) (emitted l))),
    length_filter_le. intros r. lia.
Qed.

(** X17. After [Emit] the count from [start] has grown by the number of records
    of the bulk that are after [start]. *)
Theorem QueryUsage_after_Emit l bulk start :
  Z.of_nat (length (emitted l) + length bulk) ≤ MaxInt →
  (QueryUsage ts (Emit l bulk).1 start).2.1
  = (QueryUsage ts l start).2.1
    + Z.of_nat (length (filter (λ r, start < ts r) bulk)).
Proof.
  intros Hlen. unfold MaxInt in Hlen.
  assert (emitted (Emit l bulk).1 = emitted l ++ bulk) as Hemitted.
  { destruct bulk as [|r bulk]; [by rewrite app_nil_r|].
    by rewrite (proj2 (Emit_frame l)). }
  unfold QueryUsage. cbn [fst snd]. rewrite Hemitted.
  rewrite !(count_loop ts)
    by (rewrite ?length_app; unfold MaxUint64; lia).
  rewrite filter_app, length_app. lia.
Qed.

(** X18. [GetQuotaUsage] answers the number of stored records whatever the
    instance and the start of the period, so never less than [QueryUsage]
    counts. *)
Theorem GetQuotaUsage_is_Len l instanceID periodStart start :
  Z.of_nat (length (emitted l)) ≤ MaxInt →
  GetQuotaUsage l instanceID periodStart = (Len l, None) ∧
  (QueryUsage ts l start).2.1 ≤ (GetQuotaUsage l instanceID periodStart).1.
Proof.
  intros Hlen. unfold GetQuotaUsage, Len, MaxInt in *.
  rewrite uint64_wrap_small by (unfold MaxUint64; lia).
  split; [done|]. unfold QueryUsage. cbn [fst snd].
  rewrite (count_loop ts) by (unfold MaxUint64; lia).
  apply inj_le with (n := length (filter (λ r, start < ts r) (emitted l))),
    length_filter.
Qed.

(** X19. From a new storage on, whatever is emitted and cleaned up and however
    the clock moves: [Bulks] has no entry below 1 (an empty bulk leaves no
    entry), the stored records are never more than the bulks add up to,
    and they are exactly as many as long as nothing was cleaned up. *)
Theorem Bulks_account_for_Len c q (actions : list (@action LogRecord Clock)) :
  let l : @InmemLogStorage LogRecord Clock Quota :=
    foldl (act ts Now) (NewInMemoryStorage c q) actions in
  Forall (λ n, 1 ≤ n) (Bulks l) ∧
  Len l ≤ sum_of (Bulks l) ∧
  (Forall (λ a, is_cleanup a = false) actions → Len l = sum_of (Bulks l)).
Proof.
  cbn zeta. induction actions as [|a actions IH] using List.rev_ind.
  { by repeat split. }
  rewrite foldl_app. cbn [foldl].
  destruct IH as (Hpos & Hle & Heq).
  set (l := foldl (act ts Now) (NewInMemoryStorage c q) actions) in *.
  unfold Bulks, Len in *. destruct a as [bulk|keep|c']; cbn [act].
  - destruct bulk as [|r bulk].
    + cbn [Emit fst]. split; [done|]. split; [done|].
      intros [? _]%Forall_app. auto.
    + rewrite (proj2 (Emit_frame l)). cbn [fst emitted bulks].
      rewrite sum_of_app, length_app, Nat2Z.inj_add.
      change (sum_of [Z.of_nat (length (r :: bulk))])
        with (Z.of_nat (length (r :: bulk)) + 0).
      split; [|split].
      * apply Forall_app. split; [done|]. repeat constructor. cbn. lia.
      * lia.
      * intros [? _]%Forall_app. rewrite Heq by done. lia.
  - rewrite Cleanup_filter. cbn [fst emitted bulks].
    split; [done|]. split.
    + pose proof (length_filter (λ r, cutoff Now l keep < ts r) (emitted l)).
      lia.
    + intros [_ Hlast]%Forall_app. by inversion Hlast.
  - cbn [emitted bulks]. split; [done|]. split; [done|].
    intros [? _]%Forall_app. auto.
Qed.

End LogstoreOperationsFacts.

Lemma Cleanup_keeps_recent_witness :
  Cleanup id (λ _ : unit, 10) (storage [5; 6; 4; 7; 9] [2; 3]) 4
  = (storage [6; 7; 9] [2; 3], None).
Proof.
  exact (Cleanup_keeps_recent id (λ _ : unit, 10)
           (storage [5; 6; 4; 7; 9] [2; 3]) 4
           ltac:(by vm_compute)).
Defined.

Lemma QueryUsage_after_Cleanup_witness :
  (QueryUsage id (Cleanup id (λ _ : unit, 10)
                    (storage [5; 6; 4; 7; 9] [2; 3]) 4).1 6).2
  = (QueryUsage id (storage [5; 6; 4; 7; 9] [2; 3]) 6).2.
Proof.
  refine (QueryUsage_after_Cleanup id (λ _ : unit, 10)
            (storage [5; 6; 4; 7; 9] [2; 3]) 4 6 _ _); by vm_compute.
Defined.

Lemma QueryUsage_antitone_witness :
  (QueryUsage id (storage [5; 6; 4; 7; 9] [2; 3]) 6).2.1
  ≤ (QueryUsage id (storage [5; 6; 4; 7; 9] [2; 3]) 4).2.1.
Proof.
  refine (QueryUsage_antitone id (storage [5; 6; 4; 7; 9] [2; 3]) 4 6 _ _);
    by vm_compute.
Defined.

Lemma QueryUsage_after_Emit_witness :
  (QueryUsage id (Emit (storage [5; 6] [2]) [4; 7; 9]).1 5).2.1
  = (QueryUsage id (storage [5; 6] [2]) 5).2.1 + 2.
Proof.
  refine (QueryUsage_after_Emit id (storage [5; 6] [2]) [4; 7; 9] 5 _).
  by vm_compute.
Defined.

Lemma GetQuotaUsage_is_Len_witness :
  GetQuotaUsage (storage [5; 6; 4] [3]) "instance" 100 = (3, None) ∧
  (QueryUsage id (storage [5; 6; 4] [3]) 4).2.1
  ≤ (GetQuotaUsage (storage [5; 6; 4] [3]) "instance" 100).1.
Proof.
  refine (GetQuotaUsage_is_Len id (storage [5; 6; 4] [3]) "instance" 100 4 _).
  by vm_compute.
Defined.

Lemma Bulks_account_for_Len_witness :
  Len (foldl (act id id) (NewInMemoryStorage (Quota := unit) 0 ())
         [DoEmit [1; 2]; DoEmit []; Tick 9; DoEmit [8]])
  = sum_of (Bulks (foldl (act id id) (NewInMemoryStorage (Quota := unit) 0 ())
                     [DoEmit [1; 2]; DoEmit []; Tick 9; DoEmit [8]])).
Proof.
  refine (proj2 (proj2 (Bulks_account_for_Len id id 0 ()
                          [DoEmit [1; 2]; DoEmit []; Tick 9; DoEmit [8]])) _).
  by repeat constructor.
Defined.

(** * Targets *)

(** X20. [Timeout] never answers more than [maxTimeout]; it answers the stored
    timeout when that is positive and below [maxTimeout], and [maxTimeout]
    for every other stored value (zero, negative, [maxTimeout] itself or
    more); with a positive [maxTimeout] the answer is positive. *)
Theorem Timeout_clamps maxTimeout (a : query.Target) :
  query.Timeout maxTimeout a ≤ maxTimeout ∧
  (0 < query.timeout a < maxTimeout →
   query.Timeout maxTimeout a = query.timeout a) ∧
  (query.timeout a ≤ 0 ∨ maxTimeout ≤ query.timeout a →
   query.Timeout maxTimeout a = maxTimeout) ∧
  (0 < maxTimeout → 0 < query.Timeout maxTimeout a).
Proof.
  unfold query.Timeout.
  destruct (decide (query.timeout a > 0)) as [Hpos|Hpos],
           (decide (query.timeout a < maxTimeout)) as [Hlt|Hlt];
    rewrite ?(bool_decide_eq_true_2 _ Hpos), ?(bool_decide_eq_false_2 _ Hpos),
      ?(bool_decide_eq_true_2 _ Hlt), ?(bool_decide_eq_false_2 _ Hlt);
    cbn [andb]; lia.
Qed.

Lemma scanTargets_scanned scanned : ∀ rest targets count,
  query.scanTargets ((inr <$> scanned) ++ rest) targets count
  = query.scanTargets rest (targets ++ scanned.*1)
      (default count (last scanned.*2)).
Proof.
  induction scanned as [|[target count'] scanned IH];
    intros rest targets count.
  { cbn. by rewrite app_nil_r. }
  cbn [fmap list_fmap app query.scanTargets]. rewrite IH.
  cbn [fst snd]. rewrite <-app_assoc. f_equal.
  rewrite last_cons. by destruct (last scanned.*2).
Qed.

(** X21. The rows of the targets query become the targets in the order of the
    rows, with the count column of the last row as [Count] (0 and no
    target when there is no row), provided every [Scan] and [Close]
    succeed.  The first failing [Scan] ends the loop and its error is
    returned as it is, whatever [Close] would answer; an error of [Close]
    after a complete scan is returned wrapped. *)
Theorem scanTargetRows_outcomes ThrowInternal (rows : query.TargetRows) :
  (∀ scanned,
     query.target_scans rows = inr <$> scanned →
     query.scanTargetRows ThrowInternal rows
     = match query.target_Close rows with
       | None =>
           inr {| query.Count := default 0 (last scanned.*2);
                  query.Targets_ := scanned.*1 |}
       | Some err =>
           inl (ThrowInternal err "QUERY-fzwi6cgxos" "Errors.Query.CloseRows")
       end) ∧
  (∀ scanned err rest,
     query.target_scans rows = (inr <$> scanned) ++ inl err :: rest →
     query.scanTargetRows ThrowInternal rows = inl err).
Proof.
  unfold query.scanTargetRows. split.
  - intros scanned Hscans.
    rewrite Hscans, <-(app_nil_r (inr <$> scanned)), scanTargets_scanned.
    done.
  - intros scanned err rest Hscans. by rewrite Hscans, scanTargets_scanned.
Qed.

Lemma Timeout_clamps_witness :
  query.Timeout 60 (webhook 10) = 10 ∧ query.Timeout 60 (webhook 0) = 60 ∧
  query.Timeout 60 (webhook 60) = 60 ∧ query.Timeout 60 (webhook (-5)) = 60.
Proof.
  split; [|split; [|split]].
  - apply (proj1 (proj2 (Timeout_clamps 60 (webhook 10)))). by vm_compute.
  - apply (proj1 (proj2 (proj2 (Timeout_clamps 60 (webhook 0))))).
    left. by vm_compute.
  - apply (proj1 (proj2 (proj2 (Timeout_clamps 60 (webhook 60))))).
    right. by vm_compute.
  - apply (proj1 (proj2 (proj2 (Timeout_clamps 60 (webhook (-5)))))).
    left. by vm_compute.
Defined.

Lemma scanTargetRows_outcomes_witness :
  query.scanTargetRows (λ parent _ msg, GoError msg None [parent])
    {| query.target_scans := [inr (webhook 10, 2); inr (webhook 20, 2)];
       query.target_Close := None |}
  = inr {| query.Count := 2;
           query.Targets_ := [webhook 10; webhook 20] |} ∧
  query.scanTargetRows (λ parent _ msg, GoError msg None [parent])
    {| query.target_scans :=
         [inr (webhook 10, 2); inl connection_lost; inr (webhook 20, 2)];
       query.target_Close := Some syntax_error |}
  = inl connection_lost.
Proof.
  split.
  - exact (proj1 (scanTargetRows_outcomes _
             {| query.target_scans :=
                  [inr (webhook 10, 2); inr (webhook 20, 2)];
                query.target_Close := None |})
             [(webhook 10, 2); (webhook 20, 2)] eq_refl).
  - exact (proj2 (scanTargetRows_outcomes _
             {| query.target_scans :=
                  [inr (webhook 10, 2); inl connection_lost;
                   inr (webhook 20, 2)];
                query.target_Close := Some syntax_error |})
             [(webhook 10, 2)] connection_lost [inr (webhook 20, 2)] eq_refl).
Defined.

(** * More on the error classifier *)

(** X1. Wrapping an error, any number of times, in errors that have no SQL
    state of their own does not change whether it is retryable. *)
Theorem errIsRetryable_wrapping msgs e :
  errIsRetryable (Some (wrapping msgs e)) = errIsRetryable (Some e).
Proof.
  unfold errIsRetryable, errCode.
  induction msgs as [|msg msgs IH]; [done|].
  cbn [wrapping foldr]. by rewrite errors_As_wrapped.
Qed.

(** * More on the sequence assigner *)

Section MapCommandsLayout.
Context `{env : Env}.
Implicit Types (sequences : list latestSequence) (commands : list Command).

Lemma mapCommands_from_layout commands : ∀ i sequences acc sequences' m,
  mapCommands_from i commands sequences acc = Returns (sequences', inr m) →
  ∃ events,
    length events = length commands ∧
    m_events m = m_events acc ++ events ∧
    m_placeHolders m
    = m_placeHolders acc
      ++ ((λ k, placeHolder (Z.of_nat k)) <$> seq i (length commands)) ∧
    m_args m = m_args acc ++ concat (eventArgs <$> events).
Proof.
  induction commands as [|c commands IH]; intros i sequences acc sequences' m.
  { intros [= <- <-]. exists []. by rewrite !app_nil_r. }
  cbn [mapCommands_from].
  destruct (searchSequenceByCommand sequences c) as [[at_ found]|]; [|done].
  destruct (commandToEvent (increment found) c) as [err|e]; [done|].
  intros (events & Hlen & Hev & Hph & Hargs)%IH.
  cbn [m_events m_placeHolders m_args] in *.
  exists (e :: events). cbn [length seq fmap list_fmap concat].
  rewrite Hev, Hph, Hargs, <-!app_assoc. by rewrite Hlen.
Qed.

(** X2. When [mapCommands] returns events, there is one event and one
    placeholder group per command, the group of command [i] is numbered
    from [9i+1] to [9i+9], and the arguments are the nine column values of
    each event, event after event. *)
Theorem mapCommands_layout commands sequences sequences' m :
  mapCommands commands sequences = Returns (sequences', inr m) →
  length (m_events m) = length commands ∧
  m_placeHolders m
  = (λ k, placeHolder (Z.of_nat k)) <$> seq 0 (length commands) ∧
  m_args m = concat (eventArgs <$> m_events m) ∧
  length (m_args m) = (9 * length commands)%nat.
Proof.
  intros (events & Hlen & Hev & Hph & Hargs)%mapCommands_from_layout.
  cbn [m_events m_placeHolders m_args app] in *. subst events.
  split; [done|]. split; [done|]. split; [done|].
  rewrite Hargs, <-Hlen. clear.
  induction (m_events m) as [|e events IH]; [done|].
  cbn [fmap list_fmap concat length]. rewrite length_app, IH.
  cbn [eventArgs length]. lia.
Qed.

Lemma uint64_wrap_range z : 0 ≤ uint64_wrap z ≤ MaxUint64.
Proof.
  unfold uint64_wrap, MaxUint64.
  pose proof (Z.mod_pos_bound z (2 ^ 64)). lia.
Qed.

Lemma mapCommands_from_counters commands : ∀ i sequences acc sequences' m,
  mapCommands_from i commands sequences acc = Returns (sequences', inr m) →
  length sequences' = length sequences ∧
  ∀ j s, sequences !! j = Some s →
    0 ≤ seq_sequence s ≤ MaxUint64 →
    sequences' !! j
    = Some {| seq_aggregate := seq_aggregate s;
              seq_sequence :=
                uint64_wrap (seq_sequence s
                             + Z.of_nat (referring sequences j commands)) |}.
Proof.
  induction commands as [|c commands IH]; intros i sequences acc sequences' m.
  { intros [= <- <-]. split; [done|]. intros j [agg n] Hj Hn.
    unfold referring. cbn in *. rewrite Hj, Z.add_0_r.
    by rewrite uint64_wrap_small. }
  cbn [mapCommands_from].
  destruct (searchSequenceByCommand sequences c) as [[at_ found]|] eqn:Hs;
    [|done].
  pose proof (search_lookup _ _ _ _ Hs) as Hat.
  pose proof (increment_aggregates _ _ _ Hat) as Hagg.
  destruct (commandToEvent (increment found) c) as [err|e]; [done|].
  intros [Hlen Hcount]%IH. rewrite length_insert in Hlen.
  split; [done|]. intros j s Hj Hrange.
  unfold referring. rewrite filter_cons.
  destruct (decide (selects sequences j c)) as [Hsel|Hsel].
  - unfold selects in Hsel. rewrite Hs in Hsel. injection Hsel as <-.
    rewrite Hat in Hj. injection Hj as <-.
    rewrite (Hcount at_ (increment found)).
    + rewrite (referring_aggregates _ _ _ _ Hagg).
      cbn [increment seq_aggregate seq_sequence length].
      rewrite uint64_wrap_succ, Nat2Z.inj_succ. unfold referring.
      do 3 f_equal. lia.
    + apply list_lookup_insert_eq. by eapply lookup_lt_Some.
    + apply uint64_wrap_range.
  - assert (at_ ≠ j) as Hne.
    { intros ->. apply Hsel. unfold selects. by rewrite Hs. }
    rewrite (Hcount j s); [|by rewrite list_lookup_insert_ne|done].
    by rewrite (referring_aggregates _ _ _ _ Hagg).
Qed.

(** X3. The counters after a run that returns events, for baselines that
    are pairwise different (so that no pointer is twice in the slice and a
    counter is counted up only through its own place): there are as many
    baselines as before, and a baseline whose counter was a 64-bit
    unsigned value [b] is the same aggregate with the counter [b + k]
    modulo [2^64], [k] being the number of commands that referred to it. *)
Theorem mapCommands_counters commands sequences sequences' m j s :
  NoDup sequences →
  mapCommands commands sequences = Returns (sequences', inr m) →
  sequences !! j = Some s →
  0 ≤ seq_sequence s ≤ MaxUint64 →
  length sequences' = length sequences ∧
  sequences' !! j
  = Some {| seq_aggregate := seq_aggregate s;
            seq_sequence :=
              uint64_wrap (seq_sequence s
                           + Z.of_nat (referring sequences j commands)) |}.
Proof.
  intros _ [Hlen Hcount]%mapCommands_from_counters Hj Hrange.
  split; [done|]. by apply Hcount.
Qed.

(** A run that returns events found a baseline for every command and
    converted every command. *)
Lemma mapCommands_from_returns_all commands : ∀ i sequences acc sequences' m,
  mapCommands_from i commands sequences acc = Returns (sequences', inr m) →
  Forall (λ c, has_baseline sequences c ∧ converts c) commands.
Proof.
  induction commands as [|c commands IH]; intros i sequences acc sequences' m;
    [by constructor|].
  cbn [mapCommands_from].
  destruct (searchSequenceByCommand sequences c) as [[at_ found]|] eqn:Hs;
    [|done].
  pose proof (increment_aggregates _ _ _ (search_lookup _ _ _ _ Hs)) as Hagg.
  destruct (commandToEvent (increment found) c) as [err|e] eqn:He; [done|].
  intros Hall%IH. constructor.
  - split; [unfold has_baseline; by rewrite Hs|].
    intros v Hv. unfold commandToEvent in He. rewrite Hv in He.
    destruct (encodePayload v); [done|by eexists].
  - eapply Forall_impl; [exact Hall|]. intros c' [Hb ?]. split; [|done].
    by apply (has_baseline_aggregates _ _ _ Hagg).
Qed.

Lemma filter_zip_all (P : Command → Prop) `{!∀ c, Decision (P c)}
    commands (events : list event) :
  Forall P commands →
  filter (λ ce, P ce.1) (zip commands events) = zip commands events.
Proof.
  intros Hall. revert events.
  induction Hall as [|c commands Hc Hall IH]; intros [|e events]; try done.
  cbn [zip zip_with]. rewrite filter_cons. cbn [fst].
  rewrite decide_True by done. by rewrite IH.
Qed.

(** X4. Interleaving does not matter: the commands referring to one baseline
    are given, within a batch that mixes them with commands of other
    aggregates, the sequence numbers they are given when pushed on their
    own. *)
Theorem mapCommands_interleaving commands sequences sequences' m j s :
  mapCommands commands sequences = Returns (sequences', inr m) →
  sequences !! j = Some s →
  ∃ sequences'' m',
    mapCommands (filter (selects sequences j) commands) sequences
    = Returns (sequences'', inr m') ∧
    sequence <$> m_events m' = assigned sequences j commands (m_events m).
Proof.
  intros Hrun Hj. unfold mapCommands in *.
  pose proof (mapCommands_from_returns_all _ _ _ _ _ _ Hrun) as Hall.
  apply mapCommands_from_returns in Hrun as (events & Hev & _ & Hseq).
  cbn [m_events app] in Hev. subst events.
  set (own := filter (selects sequences j) commands).
  assert (Forall (λ c, has_baseline sequences c ∧ converts c) own) as Hown.
  { apply Forall_forall. intros c [_ Hc]%list_elem_of_filter.
    by apply (proj1 (Forall_forall _ _) Hall). }
  destruct (mapCommands_from_app own 0 sequences
              {| m_events := []; m_placeHolders := []; m_args := [] |} []
              Hown) as (sequences'' & m' & _ & Heq).
  rewrite app_nil_r in Heq. cbn [mapCommands_from] in Heq.
  exists sequences'', m'. split; [done|].
  pose proof Heq as (events' & Hev' & Hall' & Hseq')%mapCommands_from_returns.
  cbn [m_events app] in Hev'. subst events'.
  assert (referring sequences j own = referring sequences j commands)
    as Hsame.
  { unfold referring, own. rewrite list_filter_filter. f_equal.
    apply list_filter_iff. tauto. }
  rewrite (Hseq j s Hj), <-Hsame, <-(Hseq' j s Hj).
  unfold assigned.
  rewrite (filter_zip_all (selects sequences j)).
  - by rewrite snd_zip by (by rewrite (Forall2_length _ _ _ Hall')).
  - apply Forall_forall. by intros c [? _]%list_elem_of_filter.
Qed.

End MapCommandsLayout.

(** * More on insertEvents *)

Section InsertProtocol.
Context `{env : Env}.
Implicit Types (w : World) (calls : list Op).

Lemma insert_run_protocol query args n rows err calls exit :
  insert_run query args n rows err calls exit →
  ∀ pre q a r post,
    calls = pre ++ OpQuery q a r :: post →
    (∃ pre', pre = pre' ++ [OpExec "SAVEPOINT insert" None]) ∧
    match r with
    | inl e =>
        if errIsRetryable (Some e)
        then ∃ rerr post',
               post = OpExec "ROLLBACK TO SAVEPOINT insert" rerr :: post'
        else post = []
    | inr _ => ∃ rerr, post = [OpExec "RELEASE SAVEPOINT insert" rerr]
    end.
Proof.
  induction 1 as [| |n rows err qerr rerr calls exit Hretry Hrun IH
                 |n rows err qerr Hfatal|];
    intros pre q a r post Hcalls.
  - by destruct pre.
  - by destruct pre as [|? [|? ?]].
  - destruct pre as [|? [|? [|? pre]]]; simplify_eq/=.
    + split; [by exists []|]. rewrite Hretry. by eexists _, _.
    + destruct (IH _ _ _ _ _ eq_refl) as [[pre' ->] Hpost].
      split; [|done]. by eexists (_ :: _ :: _ :: pre').
  - destruct pre as [|? [|? [|? ?]]]; simplify_eq/=.
    split; [by exists []|]. by rewrite Hfatal.
  - destruct pre as [|? [|? [|? [|? ?]]]]; simplify_eq/=.
    split; [by exists []|]. by eexists.
Qed.

Lemma insert_run_savepoint_failed query args n rows err calls exit :
  insert_run query args n rows err calls exit →
  ∀ pre e post,
    calls = pre ++ OpExec "SAVEPOINT insert" (Some e) :: post →
    post = [] ∧
    exit = LoopReturn (ThrowInternal e "V3-gd8jZ" "Errors.Internal").
Proof.
  induction 1 as [| |n rows err qerr rerr calls exit Hretry Hrun IH| |];
    intros pre e0 post Hcalls.
  - by destruct pre.
  - destruct pre as [|? [|? ?]]; by simplify_eq/=.
  - destruct pre as [|? [|? [|? pre]]]; simplify_eq/=. by eapply IH.
  - destruct pre as [|? [|? [|? ?]]]; by simplify_eq/=.
  - destruct pre as [|? [|? [|? [|? ?]]]]; by simplify_eq/=.
Qed.

Lemma insert_run_release_failed query args n rows err calls exit :
  insert_run query args n rows err calls exit →
  ∀ pre e post,
    calls = pre ++ OpExec "RELEASE SAVEPOINT insert" (Some e) :: post →
    post = [] ∧ ∃ rs, exit = LoopEnd (Some rs) (Some e).
Proof.
  induction 1 as [| |n rows err qerr rerr calls exit Hretry Hrun IH| |];
    intros pre e0 post Hcalls.
  - by destruct pre.
  - destruct pre as [|? [|? ?]]; by simplify_eq/=.
  - destruct pre as [|? [|? [|? pre]]]; simplify_eq/=. by eapply IH.
  - destruct pre as [|? [|? [|? ?]]]; by simplify_eq/=.
  - destruct pre as [|? [|? [|? [|? ?]]]]; simplify_eq/=. by eauto.
Qed.

(** X5. The calls of [insertEvents], whatever the database answers: every
    insert comes right after a savepoint that was set; an insert answered
    by a retryable error is followed by the rollback to the savepoint, one
    answered by another error by nothing, and one answered by rows by the
    release of the savepoint and nothing else. *)
Theorem insertEvents_savepoint_protocol w sequences commands w' res
    pre query args r post :
  insertEvents w sequences commands = (w', res) →
  issued w w' = pre ++ OpQuery query args r :: post →
  (∃ pre', pre = pre' ++ [OpExec "SAVEPOINT insert" None]) ∧
  match r with
  | inl e =>
      if errIsRetryable (Some e)
      then ∃ rerr post',
             post = OpExec "ROLLBACK TO SAVEPOINT insert" rerr :: post'
      else post = []
  | inr _ => ∃ rerr, post = [OpExec "RELEASE SAVEPOINT insert" rerr]
  end.
Proof.
  intros [[-> _]|(sequences' & m & calls & exit & _ & Htrace & Hrun & _)]
    %insertEvents_inv Hissued.
  { unfold issued in Hissued. rewrite drop_all in Hissued. by destruct pre. }
  rewrite (issued_app _ _ _ Htrace) in Hissued.
  by eapply insert_run_protocol.
Qed.

(** X6. When setting the savepoint fails, [insertEvents] makes no further call
    (the insert of that attempt is not sent) and returns the error wrapped
    by [ThrowInternal] under the id "V3-gd8jZ". *)
Theorem insertEvents_savepoint_failure w sequences commands w' res
    pre e post :
  insertEvents w sequences commands = (w', res) →
  issued w w' = pre ++ OpExec "SAVEPOINT insert" (Some e) :: post →
  post = [] ∧
  res = Returns (inl (ThrowInternal e "V3-gd8jZ" "Errors.Internal")).
Proof.
  intros [[-> _]|(sequences' & m & calls & exit & _ & Htrace & Hrun & ->)]
    %insertEvents_inv Hissued.
  { unfold issued in Hissued. rewrite drop_all in Hissued. by destruct pre. }
  rewrite (issued_app _ _ _ Htrace) in Hissued.
  by destruct (insert_run_savepoint_failed _ _ _ _ _ _ _ Hrun _ _ _ Hissued)
    as [-> ->].
Qed.

(** X7. When the insert went through but releasing the savepoint fails,
    [insertEvents] returns the error of the release, as it is, and no
    events. *)
Theorem insertEvents_release_failure w sequences commands w' res
    pre e post :
  insertEvents w sequences commands = (w', res) →
  issued w w' = pre ++ OpExec "RELEASE SAVEPOINT insert" (Some e) :: post →
  post = [] ∧ res = Returns (inl e).
Proof.
  intros [[-> _]|(sequences' & m & calls & exit & _ & Htrace & Hrun & ->)]
    %insertEvents_inv Hissued.
  { unfold issued in Hissued. rewrite drop_all in Hissued. by destruct pre. }
  rewrite (issued_app _ _ _ Htrace) in Hissued.
  by destruct (insert_run_release_failed _ _ _ _ _ _ _ Hrun _ _ _ Hissued)
    as [-> [rs ->]].
Qed.

(** X8. [insertEvents] does not treat the empty batch apart: it sets the
    savepoint and sends the insert with an empty list of values and no
    argument; when it returns events, there are none. *)
Theorem insertEvents_empty_batch w sequences w' res :
  insertEvents w sequences [] = (w', res) →
  (∃ r rest, issued w w' = OpExec "SAVEPOINT insert" r :: rest) ∧
  Forall (insert_call (fmt_Sprintf pushStmt "") []) (issued w w') ∧
  ∀ events, res = Returns (inr events) → events = [].
Proof.
  intros [(_ & Hno & _)
         |(sequences' & m & calls & exit & Hmap & Htrace & Hrun & ->)]
    %insertEvents_inv; [by destruct (Hno sequences
      {| m_events := []; m_placeHolders := []; m_args := [] |})|].
  injection Hmap as <- <-. rewrite (issued_app _ _ _ Htrace).
  split; [|split].
  - inversion Hrun; by eexists _, _.
  - by apply insert_run_calls in Hrun.
  - intros events Hres. destruct exit as [|rows err]; [done|].
    apply after_loop_returns in Hres as (rs & _ & _ & _ & Hscan).
    apply scan_rows_returns in Hscan as (Hlen & _).
    by destruct events.
Qed.

End InsertProtocol.

(** * Rows and events that do not match in number *)

Lemma scan_rows_stamps stamps : ∀ i events,
  (i + length stamps ≤ length events)%nat →
  ∃ events',
    scan_rows i (inr <$> stamps) events = Returns (inr events') ∧
    length events' = length events ∧
    ∀ k e, events !! k = Some e →
      events' !! k
      = Some (if decide (i ≤ k)%nat
              then match stamps !! (k - i)%nat with
                   | Some t => set_createdAt e t
                   | None => e
                   end
              else e).
Proof.
  induction stamps as [|t stamps IH]; intros i events Hlen.
  { exists events. split; [done|]. split; [done|].
    intros k e ->. by case_decide. }
  cbn [fmap list_fmap scan_rows length] in *.
  destruct (lookup_lt_is_Some_2 events i ltac:(lia)) as [e0 Hi].
  rewrite Hi.
  destruct (IH (S i) (<[i := set_createdAt e0 t]> events))
    as (events' & -> & Hlen' & Hat); [rewrite length_insert; lia|].
  rewrite length_insert in Hlen'.
  exists events'. split; [done|]. split; [done|].
  intros k e Hk. destruct (decide (k = i)) as [->|Hne].
  - rewrite Hi in Hk. injection Hk as <-.
    rewrite (Hat i (set_createdAt e0 t))
      by (apply list_lookup_insert_eq; lia).
    rewrite decide_False by lia. rewrite decide_True by lia.
    by rewrite Nat.sub_diag.
  - rewrite (Hat k e) by (by rewrite list_lookup_insert_ne).
    destruct (decide (S i ≤ k)%nat), (decide (i ≤ k)%nat); try lia; [|done].
    by replace (k - i)%nat with (S (k - S i)) by lia.
Qed.

Lemma scan_rows_too_many stamps : ∀ i events r rest,
  (i + length stamps = length events)%nat →
  scan_rows i ((inr <$> stamps) ++ r :: rest) events
  = Panics "index out of range".
Proof.
  induction stamps as [|t stamps IH]; intros i events r rest Hlen.
  { cbn in *. rewrite Nat.add_0_r in Hlen.
    by rewrite (lookup_ge_None_2 events i) by lia. }
  cbn [fmap list_fmap app scan_rows length] in *.
  destruct (lookup_lt_is_Some_2 events i ltac:(lia)) as [e0 ->].
  apply IH. rewrite length_insert. lia.
Qed.

(** X9. When the release of the savepoint succeeded and the rows are fewer than
    the events (or as many), every row scanning without error and
    [rows.Err()] being nil, the events come back with the creation times of
    the rows at the first positions and the others as they were, without an
    error. *)
Theorem after_loop_fewer_rows events stamps :
  (length stamps ≤ length events)%nat →
  ∃ events',
    after_loop events (Some (rows_of stamps)) None = Returns (inr events') ∧
    length events' = length events ∧
    ∀ k e, events !! k = Some e →
      events' !! k
      = Some (match stamps !! k with
              | Some t => set_createdAt e t
              | None => e
              end).
Proof.
  intros Hlen.
  destruct (scan_rows_stamps stamps 0 events Hlen)
    as (events' & Hscan & Hlen' & Hat).
  exists events'. unfold after_loop, rows_of. cbn [rows_scan rows_Err].
  rewrite Hscan. split; [done|]. split; [done|].
  intros k e Hk. rewrite (Hat k e Hk), decide_True by lia.
  by rewrite Nat.sub_0_r.
Qed.

(** X10. When the rows are more than the events, [insertEvents] panics at the
    first row without an event: the index [i] is out of range for
    [events]. *)
Theorem after_loop_more_rows events rs stamps r rest :
  rows_scan rs = (inr <$> stamps) ++ r :: rest →
  length stamps = length events →
  after_loop events (Some rs) None = Panics "index out of range".
Proof.
  intros Hrows Hlen. unfold after_loop.
  by rewrite Hrows, scan_rows_too_many.
Qed.

Lemma after_loop_fewer_rows_witness :
  after_loop (m_events batch_drafts) (Some (rows_of [100; 101])) None
  = Returns (inr [set_createdAt (added_event 8 user1) 100;
                  set_createdAt (added_event 1 user2) 101;
                  added_event 9 user1]).
Proof.
  destruct (after_loop_fewer_rows (m_events batch_drafts) [100; 101]
              ltac:(cbn; lia)) as (events' & Hrun & _).
  rewrite Hrun. by vm_compute in Hrun.
Defined.

Lemma after_loop_more_rows_witness :
  after_loop (m_events batch_drafts)
    (Some (rows_of [100; 101; 102; 103])) None
  = Panics "index out of range".
Proof.
  exact (after_loop_more_rows (m_events batch_drafts)
           (rows_of [100; 101; 102; 103]) [100; 101; 102] (inr 103) []
           eq_refl eq_refl).
Defined.

(** * More on the orchestrator *)

Section PushProtocol.
Context `{env : Env}.
Implicit Types (w : World) (calls : list Op).

Lemma insert_call_not_end query args op :
  insert_call query args op → is_end op = false.
Proof. by intros [[? ->]|[[? ->]|[[? ->]|[? ->]]]]. Qed.

Lemma insertEvents_calls_not_end w sequences commands w' res :
  insertEvents w sequences commands = (w', res) →
  ∃ calls, trace w' = trace w ++ calls ∧
           Forall (λ op, is_end op = false) calls.
Proof.
  intros [[-> _]|(sequences' & m & calls & exit & _ & Htrace & Hrun & _)]
    %insertEvents_inv.
  { exists []. by rewrite app_nil_r. }
  exists calls. split; [done|].
  eapply Forall_impl; [by eapply insert_run_calls|].
  intros op. apply insert_call_not_end.
Qed.

Lemma Push_deferred_trace w events err :
  ∃ last, trace (Push_deferred w events err).1 = trace w ++ [last] ∧
          is_end last = true.
Proof.
  unfold Push_deferred, Rollback, Commit. destruct err as [e|].
  - destruct (tx_Rollback (conn w)) as [c r]. exists (OpRollback r).
    cbn [fst]. by rewrite trace_log_OnError.
  - destruct (tx_Commit (conn w)) as [c r]. by exists (OpCommit r).
Qed.

(** X11. A [Push] that cannot open the transaction makes no other call and
    returns the error of [Begin]; every other [Push], also one that
    panics, ends the transaction exactly once, by [Commit] or [Rollback],
    as its last call. *)
Theorem Push_ends_transaction_once w commands w' out :
  Push w commands = (w', out) →
  (∃ e, issued w w' = [OpBegin (Some e)] ∧ out = Returns (None, Some e)) ∨
  (∃ middle last,
     issued w w' = OpBegin None :: middle ++ [last] ∧
     is_end last = true ∧
     Forall (λ op, is_end op = false) middle).
Proof.
  unfold Push.
  destruct (Begin w) as [w0 [e|]] eqn:Hb; apply Begin_trace in Hb.
  { intros [= <- <-]. left. exists e. split; [by apply issued_app|done]. }
  assert (∀ wf events err middle,
            trace wf = trace w0 ++ middle →
            Forall (λ op, is_end op = false) middle →
            ∃ middle' last,
              issued w (Push_deferred wf events err).1
              = OpBegin None :: middle' ++ [last] ∧
              is_end last = true ∧
              Forall (λ op, is_end op = false) middle') as Hend.
  { intros wf events err middle Hwf Hmiddle.
    destruct (Push_deferred_trace wf events err) as (last & Hlast & ?).
    exists middle, last. split; [|done]. apply issued_app.
    by rewrite Hlast, Hwf, Hb, <-!app_assoc. }
  destruct (latestSequences w0 commands) as [w1 [e|sequences]] eqn:Hl;
    apply latestSequences_trace in Hl.
  { destruct (Push_deferred w1 None (Some e)) as [wd res] eqn:Hd.
    intros [= <- <-]. right. change wd with (wd, res).1. rewrite <-Hd.
    eapply Hend; [exact Hl|]. by repeat constructor. }
  destruct (insertEvents w1 sequences commands) as [w2 res2] eqn:Hi.
  apply insertEvents_calls_not_end in Hi as (calls & Hi & Hcalls).
  assert (trace w2 = trace w0 ++ OpLatestSequences (inr sequences) :: calls)
    as Hw2 by (by rewrite Hi, Hl, <-app_assoc).
  assert (Forall (λ op, is_end op = false)
            (OpLatestSequences (inr sequences) :: calls)) as Hmid
    by (by constructor).
  destruct res2 as [[e|events]|reason].
  - destruct (Push_deferred w2 None (Some e)) as [wd res] eqn:Hd.
    intros [= <- <-]. right. change wd with (wd, res).1. rewrite <-Hd.
    by eapply Hend.
  - destruct (handleUniqueConstraints w2 commands) as [w3 r] eqn:Hu.
    apply handleUniqueConstraints_trace in Hu.
    assert (trace w3 = trace w0 ++ (OpLatestSequences (inr sequences)
              :: calls) ++ [OpUniqueConstraints r]) as Hw3
      by (by rewrite Hu, Hw2, <-app_assoc).
    assert (Forall (λ op, is_end op = false)
              ((OpLatestSequences (inr sequences) :: calls)
                 ++ [OpUniqueConstraints r])) as Hmid3
      by (apply Forall_app; split; [done|by repeat constructor]).
    destruct r as [e|].
    + destruct (Push_deferred w3 None (Some e)) as [wd res] eqn:Hd.
      intros [= <- <-]. right. change wd with (wd, res).1. rewrite <-Hd.
      by eapply Hend.
    + destruct (Push_deferred w3 (Some events) None) as [wd res] eqn:Hd.
      intros [= <- <-]. right. change wd with (wd, res).1. rewrite <-Hd.
      by eapply Hend.
  - destruct (Push_deferred w2 None None) as [wd res] eqn:Hd.
    intros [= <- <-]. right. change wd with (wd, res).1. rewrite <-Hd.
    by eapply Hend.
Qed.

Lemma mapCommands_panics_at sequences pre c post :
  Forall (λ c', has_baseline sequences c' ∧ converts c') pre →
  ¬ has_baseline sequences c →
  mapCommands (pre ++ c :: post) sequences = Panics "no sequence found".
Proof.
  intros Hpre Hc. unfold mapCommands.
  edestruct mapCommands_from_app as (sequences1 & acc1 & Hagg & ->);
    [exact Hpre|].
  cbn [mapCommands_from].
  destruct (searchSequenceByCommand sequences1 c) eqn:Hs; [|done].
  exfalso. apply Hc, (has_baseline_aggregates _ _ _ Hagg).
  unfold has_baseline. by rewrite Hs.
Qed.

(** X12. A batch that reaches a command without a baseline: [Push] panics with
    "no sequence found" after three calls, [Begin], the fetch of the
    baselines and, made by the deferred function for which [err] is still
    nil, [Commit]; no savepoint is set, no insert is sent and [Rollback]
    is not called. *)
Theorem Push_missing_baseline w commands w0 w1 sequences pre c post :
  Begin w = (w0, None) →
  latestSequences w0 commands = (w1, inr sequences) →
  commands = pre ++ c :: post →
  Forall (λ c', has_baseline sequences c' ∧ converts c') pre →
  ¬ has_baseline sequences c →
  ∃ w' r,
    Push w commands = (w', Panics "no sequence found") ∧
    issued w w'
    = [OpBegin None; OpLatestSequences (inr sequences); OpCommit r].
Proof.
  intros Hb Hl -> Hpre Hc.
  assert (insertEvents w1 sequences (pre ++ c :: post)
          = (w1, Panics "no sequence found")) as Hi.
  { unfold insertEvents. by rewrite mapCommands_panics_at. }
  rewrite (Push_panic_runs_deferred _ _ _ _ _ _ _ Hb Hl Hi).
  unfold Commit. destruct (tx_Commit (conn w1)) as [c' r].
  eexists _, r. split; [done|]. apply issued_app. cbn [fst trace record].
  apply Begin_trace in Hb. apply latestSequences_trace in Hl.
  by rewrite Hl, Hb, <-!app_assoc.
Qed.

End PushProtocol.

(** * More runs against the scripted database *)

Lemma mapCommands_layout_witness :
  length (m_args batch_drafts) = 27%nat ∧
  m_args batch_drafts = concat (eventArgs <$> m_events batch_drafts).
Proof.
  pose proof (@mapCommands_layout (scripted fetched) batch fetched
                batch_counted batch_drafts batch_mapped)
    as (_ & _ & Hargs & Hlen).
  split; [exact Hlen|exact Hargs].
Defined.

Lemma fetched_different : NoDup fetched.
Proof.
  apply NoDup_cons. split; [|apply NoDup_singleton].
  intros Hin%list_elem_of_singleton. discriminate Hin.
Qed.

Lemma mapCommands_counters_witness :
  batch_counted !! 0%nat = Some (baseline user1 9).
Proof.
  exact (proj2 (@mapCommands_counters (scripted fetched) batch fetched
                  batch_counted batch_drafts 0%nat (baseline user1 7)
                  fetched_different batch_mapped eq_refl
                  ltac:(by vm_compute))).
Defined.

Lemma mapCommands_interleaving_witness :
  ∃ sequences'' m',
    @mapCommands (scripted fetched) [added user1 "{}"; added user1 "{}"]
      fetched = Returns (sequences'', inr m') ∧
    sequence <$> m_events m' = [8; 9].
Proof.
  exact (@mapCommands_interleaving (scripted fetched) batch fetched
           batch_counted batch_drafts 0%nat (baseline user1 7)
           batch_mapped eq_refl).
Defined.

Lemma insertEvents_savepoint_protocol_witness :
  (∃ pre',
     [OpExec "SAVEPOINT insert" None;
      OpQuery batch_statement (m_args batch_drafts)
        (inl serialization_failure);
      OpExec "ROLLBACK TO SAVEPOINT insert" None;
      OpExec "SAVEPOINT insert" None]
     = pre' ++ [OpExec "SAVEPOINT insert" None]) ∧
  ∃ rerr, [OpExec "RELEASE SAVEPOINT insert" None]
          = [OpExec "RELEASE SAVEPOINT insert" rerr].
Proof.
  refine (insertEvents_savepoint_protocol retried_once fetched batch
            (insertEvents retried_once fetched batch).1
            (insertEvents retried_once fetched batch).2
            [OpExec "SAVEPOINT insert" None;
             OpQuery batch_statement (m_args batch_drafts)
               (inl serialization_failure);
             OpExec "ROLLBACK TO SAVEPOINT insert" None;
             OpExec "SAVEPOINT insert" None]
            batch_statement (m_args batch_drafts)
            (inr (rows_of [100; 101; 102]))
            [OpExec "RELEASE SAVEPOINT insert" None] _ _); by vm_compute.
Defined.

Lemma insertEvents_savepoint_failure_witness :
  (insertEvents (start_refusing "SAVEPOINT insert" []) fetched batch).2
  = Returns (inl (GoError "V3-gd8jZ Errors.Internal" None [connection_lost])).
Proof.
  refine (proj2 (insertEvents_savepoint_failure
                   (start_refusing "SAVEPOINT insert" []) fetched batch
                   (insertEvents (start_refusing "SAVEPOINT insert" [])
                      fetched batch).1 _ [] connection_lost [] _ _));
    by vm_compute.
Defined.

Lemma insertEvents_release_failure_witness :
  (insertEvents
     (start_refusing "RELEASE SAVEPOINT insert" [inr (rows_of [100; 101; 102])])
     fetched batch).2
  = Returns (inl connection_lost).
Proof.
  refine (proj2 (insertEvents_release_failure
                   (start_refusing "RELEASE SAVEPOINT insert"
                      [inr (rows_of [100; 101; 102])]) fetched batch
                   (insertEvents
                      (start_refusing "RELEASE SAVEPOINT insert"
                         [inr (rows_of [100; 101; 102])]) fetched batch).1 _
                   [OpExec "SAVEPOINT insert" None;
                    OpQuery batch_statement (m_args batch_drafts)
                      (inr (rows_of [100; 101; 102]))]
                   connection_lost [] _ _));
    by vm_compute.
Defined.

Lemma insertEvents_empty_batch_witness :
  Forall (insert_call "INSERT INTO events VALUES  RETURNING created_at" [])
    (issued (start_of fetched [inr (rows_of [])])
       (insertEvents (start_of fetched [inr (rows_of [])]) fetched []).1).
Proof.
  exact (proj1 (proj2 (insertEvents_empty_batch
                         (start_of fetched [inr (rows_of [])]) fetched
                         (insertEvents (start_of fetched [inr (rows_of [])])
                            fetched []).1
                         (insertEvents (start_of fetched [inr (rows_of [])])
                            fetched []).2
                         (surjective_pairing _)))).
Defined.

Lemma Push_ends_transaction_once_witness :
  ∃ middle last,
    issued rejected (Push rejected batch).1
    = OpBegin None :: middle ++ [last] ∧
    is_end last = true ∧ Forall (λ op, is_end op = false) middle.
Proof.
  destruct (Push_ends_transaction_once rejected batch
              (Push rejected batch).1 (Push rejected batch).2
              (surjective_pairing _)) as [(e & Hissued & _)|Hend].
  - by vm_compute in Hissued.
  - exact Hend.
Defined.

Lemma Push_missing_baseline_witness :
  ∃ w' r,
    Push rejected [added user1 "{}"; added user3 "{}"]
    = (w', Panics "no sequence found") ∧
    issued rejected w'
    = [OpBegin None; OpLatestSequences (inr fetched); OpCommit r].
Proof.
  refine (Push_missing_baseline rejected
            [added user1 "{}"; added user3 "{}"]
            (Begin rejected).1
            (latestSequences (Begin rejected).1
               [added user1 "{}"; added user3 "{}"]).1
            fetched [added user1 "{}"] (added user3 "{}") [] _ _ _ _ _);
    try (by vm_compute).
  - repeat constructor; [by vm_compute; eauto|].
    intros v [= <-]; by eexists.
  - by intros [? [=]].
Defined.

(** C2, at a database that answers every insert by a serialization
    failure and every rollback to the savepoint by success.  The phases do
    not all succeed: the insert phase neither returns events nor an error,
    it panics on the nil rows.  The deferred function of [Push] then finds
    [err] nil and calls [Commit]: the calls of this [Push] end with
    [Commit], none of them is [Rollback], and the panic goes on to the
    caller. *)
Theorem Push_commits_while_panicking :
  (∀ events w3, ¬ phases_succeed contended batch events w3) ∧
  (Push contended batch).2
  = Panics "invalid memory address or nil pointer dereference" ∧
  filter (λ op, is_end op = true)
    (issued contended (Push contended batch).1)
  = [OpCommit None] ∧
  last (issued contended (Push contended batch).1) = Some (OpCommit None).
Proof.
  split; [|by vm_compute].
  intros events w3 Hphases.
  destruct Hphases as [w0 w1 sequences w2 events w3 Hb Hl Hi Hu].
  vm_compute in Hb. injection Hb as <-.
  vm_compute in Hl. injection Hl as <- <-.
  vm_compute in Hi. discriminate Hi.
Qed.
